(** * Coverage-feedback core of the fuzzing engine

    A shallow embedding of
      - centipede/concurrent_byteset.h  (ConcurrentByteSet and the layered set),
      - centipede/feature.h             (feature domains and encoders),
      - fuzztest/internal/table_of_recent_compares.h (integer TORC),
    followed by the properties proved about them.

    Conventions.  An unsigned w-bit integer is a [Z] and every narrowing
    store or conversion is written out as a reduction modulo [2^w].  Array
    indices of the byte sets are [nat]: no index computation in
    concurrent_byteset.h can exceed the array size, so [size_t] never wraps
    there.  In feature.h, [size_t], [uintptr_t] and [feature_t] are 64-bit and
    wrap.  [__builtin_trap()] is the [None] of the [option] monad. *)

From Stdlib Require Import ZArith Lia.
From stdpp Require Import base tactics option list numbers gmap.

(** ** Machine integers and traps *)

Definition trap {A : Type} : option A := None.

(** Conversion of an integer to an unsigned type of [w] bits. *)
Definition wrap (w : Z) (x : Z) : Z := (x `mod` 2 ^ w)%Z.

Definition uint8_t : Z → Z := wrap 8.
Definition uint32_t : Z → Z := wrap 32.
Definition uint64_t : Z → Z := wrap 64.
(** LP64: [size_t] and [uintptr_t] are 64 bits wide. *)
Definition size_t : Z → Z := wrap 64.
Definition uintptr_t : Z → Z := wrap 64.

Definition CHAR_BIT : Z := 8.

(** [for (i = start; i < stop; i += step) body]: the body threads the state
    [S] and may trap.  [fuel] bounds the number of iterations; every caller
    passes at least [stop - start] with [step ≥ 1], so the test [i < stop]
    fails before the fuel is spent ([for_lt_count], [for_lt_empty]). *)
Fixpoint for_lt {S : Type} (fuel : nat) (i stop step : nat)
    (body : nat → S → option S) (s : S) : option S :=
  match fuel with
  | O => Some s
  | S fuel' =>
      if decide (i < stop)
      then s' ← body i s; for_lt fuel' (i + step) stop step body s'
      else Some s
  end.

(** The value of a little-endian byte string, as [__builtin_memcpy] into an
    integer reads it on a little-endian host. *)
Fixpoint le_combine (bs : list Z) : Z :=
  match bs with
  | [] => 0
  | b :: bs' => b + 2 ^ 8 * le_combine bs'
  end%Z.

(** [__builtin_memset(ptr, c, n)] inside an array. *)
Definition memset (ptr : nat) (c : Z) (n : nat) (bytes : list Z) : list Z :=
  list_inserts ptr (replicate n c) bytes.

(** [std::function<void(size_t, uint8_t)>]: a callback that updates the
    caller's state [S] (and may itself trap). *)
Definition action_t (S : Type) : Type := nat → Z → S → option S.

(** ** concurrent_byteset.h: [ConcurrentByteSet<kSize>] *)

Module ConcurrentByteSet.

Definition kSizeMultiple : nat := 64.
(** [sizeof(word_t)] with [word_t = uintptr_t]. *)
Definition kWordSize : nat := 8.

Section WithSize.
Variable kSize : nat.

Definition kSizeInBytes : nat := kSize.

(** The object is its array [bytes_], a [list Z] of length [kSize]. *)
Definition clear (bytes_ : list Z) : list Z := replicate kSize 0%Z.

(** [value] is a [uint8_t]: callers pass [0 ≤ value < 256]. *)
Definition Set_ (idx : nat) (value : Z) (bytes_ : list Z) : option (list Z) :=
  if decide (kSize ≤ idx) then trap
  else Some (<[idx := value]> bytes_).

Definition SaturatedIncrement (idx : nat) (bytes_ : list Z) : option (list Z) :=
  if decide (kSize ≤ idx) then trap
  else
    let counter := bytes_ !!! idx in
    if decide (counter ≠ 255%Z)
    then Some (<[idx := uint8_t (counter + 1)]> bytes_)
    else Some bytes_.

(** [__builtin_memcpy(&word, ptr, kWordSize)]. *)
Definition load_word (ptr : nat) (bytes_ : list Z) : Z :=
  le_combine (take kWordSize (drop ptr bytes_)).

(** The inner loop over the byte positions of one non-zero word. *)
Definition byte_body {S : Type} (action : action_t S) (ptr : nat) (word : Z)
    (pos : nat) (s : S) : option S :=
  let value := uint8_t (word ≫ (Z.of_nat pos * CHAR_BIT)) in
  if decide (value ≠ 0%Z) then action (ptr + pos) value s else Some s.

(** One iteration of the loop over words; the state is the array together
    with the state of the callback. *)
Definition word_body {S : Type} (action : action_t S) (ptr : nat)
    (st : list Z * S) : option (list Z * S) :=
  let '(bytes_, s) := st in
  let word := load_word ptr bytes_ in
  if decide (word = 0%Z) then Some (bytes_, s)
  else
    let bytes_' := memset ptr 0 kWordSize bytes_ in
    s' ← for_lt kWordSize 0 kWordSize 1 (byte_body action ptr word) s;
    Some (bytes_', s').

(** [ptr] runs from [&bytes_[from]] in steps of [kWordSize] while
    [ptr < end], with [end = &bytes_[to]]; pointers are their offsets into
    [bytes_].  The source checks [to] against [kSize] but not [from]: for
    [from > kSize] it forms a pointer beyond the array, which is read here
    as the offset [from] (an address that has not wrapped around, as for
    every [from] below [2^64] minus the address of the array); the
    statements about returning calls keep to [from ≤ kSize] or name their
    [from]. *)
Definition ForEachNonZeroByte {S : Type} (action : action_t S)
    (from to : nat) (bytes_ : list Z) (s : S) : option (list Z * S) :=
  if decide (from `mod` kSizeMultiple ≠ 0) then trap
  else if decide (to `mod` kSizeMultiple ≠ 0) then trap
  else if decide (kSize < to) then trap
  else for_lt (to - from) from to kWordSize (word_body action) (bytes_, s).

End WithSize.
End ConcurrentByteSet.

(** ** concurrent_byteset.h: [LayeredConcurrentByteSet<kSize, Upper, Lower>]

    Both layers are [ConcurrentByteSet]s, as in [TwoLayerConcurrentByteSet];
    [kUpper] is [Upper::kSizeInBytes] and [kSize] is [Lower::kSizeInBytes]. *)

Module LayeredConcurrentByteSet.

Record t : Type := mk { upper_layer_ : list Z; lower_layer_ : list Z }.

Section WithSizes.
Variables kSize kUpper : nat.

Definition kSizeInBytes : nat := kSize.
Definition kSizeMultiple : nat :=
  ConcurrentByteSet.kSizeMultiple * ConcurrentByteSet.kSizeMultiple.
Definition kLayerRatio : nat :=
  ConcurrentByteSet.kSizeInBytes kSize / ConcurrentByteSet.kSizeInBytes kUpper.

Definition clear (b : t) : t :=
  mk (ConcurrentByteSet.clear kUpper (upper_layer_ b))
     (ConcurrentByteSet.clear kSize (lower_layer_ b)).

Definition Set_ (idx : nat) (value : Z) (b : t) : option t :=
  if decide (kSize ≤ idx) then trap
  else
    u ← ConcurrentByteSet.Set_ kUpper (idx / kLayerRatio) 1 (upper_layer_ b);
    l ← ConcurrentByteSet.Set_ kSize idx value (lower_layer_ b);
    Some (mk u l).

Definition SaturatedIncrement (idx : nat) (b : t) : option t :=
  if decide (kSize ≤ idx) then trap
  else
    u ← ConcurrentByteSet.Set_ kUpper (idx / kLayerRatio) 1 (upper_layer_ b);
    l ← ConcurrentByteSet.SaturatedIncrement kSize idx (lower_layer_ b);
    Some (mk u l).

(** The lambda handed to the upper layer: it captures [lower_layer_] and
    [action] by reference, so its state is the lower array paired with
    the state of [action]. *)
Definition drain_chunk {S : Type} (action : action_t S)
    : action_t (list Z * S) :=
  λ idx value st,
    let lower_from := idx * kLayerRatio in
    let lower_to := lower_from + kLayerRatio in
    ConcurrentByteSet.ForEachNonZeroByte kSize action lower_from lower_to
      st.1 st.2.

Definition ForEachNonZeroByte {S : Type} (action : action_t S)
    (from to : nat) (b : t) (s : S) : option (t * S) :=
  if decide (kSize < to) then trap
  else if decide (from `mod` kSizeMultiple ≠ 0) then trap
  else if decide (to `mod` kSizeMultiple ≠ 0) then trap
  else
    let upper_from := from / kLayerRatio in
    let upper_to := to / kLayerRatio in
    r ← ConcurrentByteSet.ForEachNonZeroByte kUpper (drain_chunk action)
           upper_from upper_to (upper_layer_ b) (lower_layer_ b, s);
    Some (mk r.1 r.2.1, r.2.2).

End WithSizes.
End LayeredConcurrentByteSet.

(** [TwoLayerConcurrentByteSet<kSize>]: the upper layer is 64 times smaller. *)
Module TwoLayerConcurrentByteSet.
Section WithSize.
Variable kSize : nat.
Definition clear := LayeredConcurrentByteSet.clear kSize (kSize / 64).
Definition Set_ := LayeredConcurrentByteSet.Set_ kSize (kSize / 64).
Definition SaturatedIncrement :=
  LayeredConcurrentByteSet.SaturatedIncrement kSize (kSize / 64).
Definition ForEachNonZeroByte {S : Type} :=
  @LayeredConcurrentByteSet.ForEachNonZeroByte kSize (kSize / 64) S.
End WithSize.
End TwoLayerConcurrentByteSet.

(** ** Callers of the byte sets *)

(** The callback that records its calls, in order. *)
Definition record_call : action_t (list (nat * Z)) :=
  λ idx value calls, Some (calls ++ [(idx, value)]).

(** A single-threaded writer: a sequence of [Set] and [SaturatedIncrement]
    calls. *)
Inductive write_op : Type :=
  | OpSet (idx : nat) (value : Z)
  | OpInc (idx : nat).

Definition op_index (op : write_op) : nat :=
  match op with OpSet idx _ => idx | OpInc idx => idx end.

(** The argument of [Set] is a [uint8_t]. *)
Definition op_ok (kSize : nat) (op : write_op) : Prop :=
  op_index op < kSize ∧
  match op with OpSet _ value => (0 ≤ value < 256)%Z | OpInc _ => True end.

Definition apply_op (kSize : nat) (op : write_op) (bytes_ : list Z)
    : option (list Z) :=
  match op with
  | OpSet idx value => ConcurrentByteSet.Set_ kSize idx value bytes_
  | OpInc idx => ConcurrentByteSet.SaturatedIncrement kSize idx bytes_
  end.

Definition apply_op2 (kSize : nat) (op : write_op)
    (b : LayeredConcurrentByteSet.t) : option LayeredConcurrentByteSet.t :=
  match op with
  | OpSet idx value => TwoLayerConcurrentByteSet.Set_ kSize idx value b
  | OpInc idx => TwoLayerConcurrentByteSet.SaturatedIncrement kSize idx b
  end.

(** Runs the calls in order; a trap ends the run. *)
Fixpoint run {St Op : Type} (step : Op → St → option St) (ops : list Op)
    (st : St) : option St :=
  match ops with
  | [] => Some st
  | op :: ops' => st' ← step op st; run step ops' st'
  end.

(** ** feature.h *)

(** [__builtin_clz] and [__builtin_clzll]: the number of zero bits above the
    highest set bit, scanning down from bit [n - 1]. *)
Fixpoint clz_from (n : nat) (x : Z) : Z :=
  match n with
  | O => 0
  | S m => if Z.testbit x (Z.of_nat m) then 0 else 1 + clz_from m x
  end%Z.

Definition builtin_clz (x : Z) : Z := clz_from 32 x.
Definition builtin_clzll (x : Z) : Z := clz_from 64 x.

(** [__builtin_popcountll]: the number of set bits among bits [0 .. n-1]. *)
Fixpoint popcount_from (n : nat) (x : Z) : Z :=
  match n with
  | O => 0
  | S m => (if Z.testbit x (Z.of_nat m) then 1 else 0) + popcount_from m x
  end%Z.

Definition builtin_popcountll (x : Z) : Z := popcount_from 64 x.

Module feature_domains.
Local Open Scope Z_scope.

Record Domain : Type := mkDomain { domain_id : Z }.

(** [1ULL << 27]. *)
Definition kDomainSize : Z := 1 ≪ 27.

(** Operands are unsigned, so [/] and [%] are [Z.div] and [Z.modulo]. *)
Definition begin (d : Domain) : Z := uint64_t (kDomainSize * domain_id d).
Definition end_ (d : Domain) : Z := uint64_t (begin d + kDomainSize).
Definition Contains (d : Domain) (feature : Z) : bool :=
  bool_decide (begin d ≤ feature) && bool_decide (feature < end_ d).
Definition ConvertToMe (d : Domain) (number : Z) : Z :=
  uint64_t (begin d + number `mod` kDomainSize).
Definition FeatureToDomainId (feature : Z) : Z := feature `div` kDomainSize.
Definition FeatureToIndexInDomain (feature : Z) : Z :=
  feature `mod` kDomainSize.

(** The domains, numbered by [__COUNTER__] in declaration order. *)
Definition kUnknown : Domain := mkDomain 0.
Definition kPCs : Domain := mkDomain 1.
Definition k8bitCounters : Domain := mkDomain 2.
Definition kDataFlow : Domain := mkDomain 3.
Definition kCMP : Domain := mkDomain 4.
Definition kCMPEq : Domain := mkDomain 5.
Definition kCMPModDiff : Domain := mkDomain 6.
Definition kCMPHamming : Domain := mkDomain 7.
Definition kCMPDiffLog : Domain := mkDomain 8.
Definition kCMPDomains : list Domain :=
  [kCMP; kCMPEq; kCMPModDiff; kCMPHamming; kCMPDiffLog].
Definition kCallStack : Domain := mkDomain 9.
Definition kBoundedPath : Domain := mkDomain 10.
Definition kPCPair : Domain := mkDomain 11.
Definition kUserDomains : list Domain :=
  map (λ i, mkDomain (12 + Z.of_nat i)) (seq 0 16).
Definition kLastDomain : Domain := mkDomain 28.
Definition kNumDomains : Z := domain_id kLastDomain.
Definition kNoFeature : Z := begin kUnknown.

(** Every domain feature.h declares. *)
Definition declared : list Domain :=
  [kUnknown; kPCs; k8bitCounters; kDataFlow] ++ kCMPDomains
  ++ [kCallStack; kBoundedPath; kPCPair] ++ kUserDomains ++ [kLastDomain].
End feature_domains.

Definition Convert8bitCounterToNumber (pc_index counter_value : Z) : option Z :=
  if decide (counter_value = 0%Z) then trap
  else
    let counter_log2 := uint32_t (4 * 8 - 1 - builtin_clz counter_value) in
    Some (size_t (pc_index * 8 + counter_log2)).

Definition ConvertPCFeatureToPcIndex (feature : Z) : option Z :=
  let domain := feature_domains.kPCs in
  if negb (feature_domains.Contains domain feature) then trap
  else Some (size_t (feature - feature_domains.begin domain)).

Definition ConvertPcPairToNumber (pc1 pc2 max_pc : Z) : Z :=
  size_t (pc1 * max_pc + pc2).

Definition ABToCmpModDiff (a b : Z) : Z :=
  let diff := uintptr_t (a - b) in
  if decide (diff ≤ 32)%Z then diff
  else if decide (uintptr_t (- diff) < 32)%Z
       then uintptr_t (32 + uintptr_t (- diff))
       else 0%Z.

(** [__builtin_popcountll] returns an [int]; the subtraction is done in
    [int] and the result converted to the return type. *)
Definition ABToCmpHamming (a b : Z) : Z :=
  uintptr_t (builtin_popcountll (Z.lxor a b) - 1).

Definition ABToCmpDiffLog (a b : Z) : Z :=
  uintptr_t
    (builtin_clzll (if decide (a > b)%Z then uintptr_t (a - b)
                    else uintptr_t (b - a))).

(** [FeatureArray<kSize>]: [features_] is left uninitialised by the
    constructor (any contents), [num_features_] starts at 0. *)
Module FeatureArray.

Record t : Type := mk { features_ : list Z; num_features_ : nat }.

Section WithSize.
Variable kSize : nat.

Definition push_back (feature : Z) (a : t) : t :=
  if decide (num_features_ a < kSize)
  then mk (<[num_features_ a := feature]> (features_ a))
          (S (num_features_ a))
  else a.

Definition clear (a : t) : t := mk (features_ a) 0.

(** [data()] points at [features_[0]]; [size()] elements of it are valid. *)
Definition data (a : t) : list Z := features_ a.
Definition size (a : t) : nat := num_features_ a.

End WithSize.
End FeatureArray.

(** ** table_of_recent_compares.h: [TableOfRecentCompares<T>]

    [T] is an unsigned integer type of [sizeofT] bytes, and [ValueType = T]
    throughout (as [IntegerDictionary<T>] instantiates the member templates
    for an unsigned [T]; [TableOfRecentCompares_ValueType] below has them at
    a signed [ValueType] and at [bool]). *)

Module TableOfRecentCompares.

Record CompareEntry : Type := mkEntry { lhs : Z; rhs : Z }.

#[global] Instance CompareEntry_inhabited : Inhabited CompareEntry :=
  populate (mkEntry 0 0).

Record t : Type := mk { insert_index_ : Z; table_ : list CompareEntry }.

Section WithT.
Variable sizeofT : Z.

Definition bits : Z := (sizeofT * CHAR_BIT)%Z.
Definition static_cast (x : Z) : Z := wrap bits x.
Definition numeric_limits_min : Z := 0%Z.
Definition numeric_limits_max : Z := (2 ^ bits - 1)%Z.

Definition kTableSize : nat := Z.to_nat (4096 `div` sizeofT).
Definition kValueMask : Z := static_cast (Z.of_nat kTableSize - 1).

(** [std::array] value-initialised, cursor at 0. *)
Definition empty : t := mk 0 (replicate kTableSize (mkEntry 0 0)).

Definition Insert (l r : Z) (tb : t) : t :=
  let idx := Z.land (size_t (insert_index_ tb * 37 + 89)) kValueMask in
  mk idx (<[Z.to_nat idx := mkEntry l r]> (table_ tb)).

Definition GetMatchingIntegerDictionaryEntry (tb : t) (val : Z) (idx : nat)
    : option Z :=
  let e := table_ tb !!! idx in
  if decide (static_cast (lhs e) = val) then Some (static_cast (rhs e))
  else if decide (static_cast (rhs e) = val) then Some (static_cast (lhs e))
  else None.

(** The four-argument overload. *)
Definition GetMatchingIntegerDictionaryEntry_in (tb : t) (val : Z)
    (idx : nat) (min max : Z) : option Z :=
  match GetMatchingIntegerDictionaryEntry tb val idx with
  | Some result =>
      if decide (result < min ∨ result > max)%Z then None else Some result
  | None => None
  end.

(** The entry is inserted into [dictionary_set] when it has a value. *)
Definition insert_entry (dictionary_set : gset Z) (dict_entry : option Z)
    : gset Z :=
  match dict_entry with
  | Some v => {[ v ]} ∪ dictionary_set
  | None => dictionary_set
  end.

(** The [absl::flat_hash_set] is a [gset Z]; the returned vector lists
    its elements in the set's iteration order. *)
Definition GetMatchingIntegerDictionaryEntries (tb : t) (val min max : Z)
    : list Z :=
  let dictionary_set :=
    if decide (min = numeric_limits_min ∧ max = numeric_limits_max)
    then
      foldl (λ set i,
               insert_entry set (GetMatchingIntegerDictionaryEntry tb val i))
            ∅ (seq 0 kTableSize)
    else
      foldl (λ set i,
               insert_entry set
                 (GetMatchingIntegerDictionaryEntry_in tb val i min max))
            ∅ (seq 0 kTableSize)
  in elements dictionary_set.

(** [RandomBool(prng)] is a Bernoulli(1/2) draw; [coin] is its outcome. *)
Definition GetRandomSide (coin : bool) (tb : t) (idx : nat) (min max : Z)
    : option Z :=
  let entry := table_ tb !!! idx in
  if coin then
    let val := static_cast (lhs entry) in
    if decide (min ≤ val ∧ val ≤ max)%Z then Some val else None
  else
    let val := static_cast (lhs entry) in
    if decide (min ≤ val ∧ val ≤ max)%Z then Some val else None.

End WithT.
End TableOfRecentCompares.

(** ** table_of_recent_compares.h: [TableOfRecentlyComparedBuffers]

    A container of element type [T] ([sizeofT] bytes) is the list of its
    elements, each element the little-endian value of its bytes; this is also
    how [reinterpret_cast<const T*>] reads a byte buffer on a little-endian
    host. *)

(** [DictionaryEntry<ContainerT>]: the position hint and the value. *)
Definition DictionaryEntry : Type := (option nat * list Z)%type.
Definition position_hint (e : DictionaryEntry) : option nat := e.1.
Definition value (e : DictionaryEntry) : list Z := e.2.

(** [std::search(first, last, s_first, s_last)] as an offset from [first]:
    the first offset at which the needle starts, [length hay] (that is,
    [last]) when there is none. *)
Fixpoint search (hay needle : list Z) : nat :=
  if decide (needle `prefix_of` hay) then 0
  else match hay with
       | [] => 0
       | _ :: hay' => S (search hay' needle)
       end.

Module TableOfRecentlyComparedBuffers.

Definition kTableSize : nat := 128.
Definition kValueMask : Z := 127.
Definition kEntrySize : nat := 128.

Record ComparedBufferEntry : Type :=
  mkEntry { buf_size : nat; buf1 : list Z; buf2 : list Z }.

#[global] Instance ComparedBufferEntry_inhabited
  : Inhabited ComparedBufferEntry :=
  populate (mkEntry 0 (replicate kEntrySize 0%Z) (replicate kEntrySize 0%Z)).

Record t : Type := mk { insert_index_ : Z; table_ : list ComparedBufferEntry }.

(** Value-initialised table, cursor at 0. *)
Definition empty : t := mk 0 (replicate kTableSize inhabitant).

(** [std::copy(src, src + n, dst.begin())]; the caller owns [n] readable
    bytes at [src]. *)
Definition copy_into (src : list Z) (n : nat) (dst : list Z) : list Z :=
  list_inserts 0 (take n src) dst.

Definition Insert (b1 b2 : list Z) (n : nat) (tb : t) : t :=
  let idx := Z.land (size_t (insert_index_ tb * 37 + 89)) kValueMask in
  let n := if decide (kEntrySize ≤ n) then kEntrySize - 1 else n in
  let entry := table_ tb !!! Z.to_nat idx in
  mk idx
     (<[Z.to_nat idx :=
          mkEntry n (copy_into b1 n (buf1 entry)) (copy_into b2 n (buf2 entry))]>
        (table_ tb)).

(** The elements of [[buf, buf + buf_size)] read as [T], copied into a fresh
    container. *)
Definition MakeContainer (sizeofT : nat) (buf : list Z) (buf_size : nat)
    : list Z :=
  (λ k, le_combine (take sizeofT (drop (k * sizeofT) buf)))
    <$> seq 0 (buf_size / sizeofT).

Definition GetMatchingContainerDictionaryEntry (sizeofT : nat) (val : list Z)
    (b1 b2 : list Z) (buf_size : nat) : option DictionaryEntry :=
  let val_size := length val * sizeofT in
  let kBufSizeValueMask := sizeofT - 1 in
  if decide (Nat.land buf_size kBufSizeValueMask ≠ 0 ∨ val_size < buf_size
             ∨ buf_size = 0)
  then None
  else
    let offset1 := search val (MakeContainer sizeofT b1 buf_size) in
    if decide (offset1 ≠ length val)
    then Some (Some offset1, MakeContainer sizeofT b2 buf_size)
    else
      let offset2 := search val (MakeContainer sizeofT b2 buf_size) in
      if decide (offset2 ≠ length val)
      then Some (Some offset2, MakeContainer sizeofT b1 buf_size)
      else None.

(** The [absl::flat_hash_set] of entries is a [gset]. *)
Definition GetMatchingContainerDictionaryEntries (sizeofT : nat)
    (val : list Z) (tb : t) : list DictionaryEntry :=
  let dictionary : gset DictionaryEntry :=
    foldl (λ set table_entry,
             match GetMatchingContainerDictionaryEntry sizeofT val
                     (buf1 table_entry) (buf2 table_entry)
                     (buf_size table_entry) with
             | Some dict_entry => {[ dict_entry ]} ∪ set
             | None => set
             end)
          ∅ (table_ tb)
  in elements dictionary.

(** [ChooseOffset(kTableSize, prng)] has drawn [offset]. *)
Definition GetRandomEntry (offset : nat) (tb : t) : ComparedBufferEntry :=
  table_ tb !!! offset.

(** [RandomBool(prng)] has drawn [coin]. *)
Definition GetRandomSide (sizeofT : nat) (coin : bool) (b1 b2 : list Z)
    (buf_size : nat) : option DictionaryEntry :=
  let kBufSizeValueMask := sizeofT - 1 in
  if decide (Nat.land buf_size kBufSizeValueMask ≠ 0 ∨ buf_size = 0) then None
  else if coin then Some (None, MakeContainer sizeofT b1 buf_size)
  else Some (None, MakeContainer sizeofT b2 buf_size).

End TableOfRecentlyComparedBuffers.

(** ** table_of_recent_compares.h: the member templates at a [ValueType]

    [GetMatchingIntegerDictionaryEntry], [GetMatchingIntegerDictionaryEntries]
    and [GetRandomSide] are templates on [ValueType].  [IntegerDictionary<T>]
    instantiates them at its own [T] on the table [Get<sizeof(T)>()], whose
    slots are unsigned: [ValueType] has the width of the slots and is an
    unsigned type, a signed type or [bool] (all of which
    [std::is_integral_v] admits).  A value of [ValueType] is the integer it
    denotes. *)

Inductive value_kind : Type := Unsigned | Signed | Boolean.

Module TableOfRecentCompares_ValueType.
Import TableOfRecentCompares.
Section WithValueType.
Variable sizeofT : Z.
Variable kind : value_kind.

(** [static_cast<ValueType>(x)] of a slot operand: the operand itself, its
    two's complement reading, or whether it is non-zero. *)
Definition static_cast (x : Z) : Z :=
  let u := wrap (bits sizeofT) x in
  match kind with
  | Unsigned => u
  | Signed =>
      if decide (u < 2 ^ (bits sizeofT - 1))%Z then u
      else (u - 2 ^ bits sizeofT)%Z
  | Boolean => if decide (u = 0%Z) then 0%Z else 1%Z
  end.

(** The conversion back to the slot type [T], which inserting a [ValueType]
    into the [flat_hash_set<T>] performs. *)
Definition to_T (v : Z) : Z := wrap (bits sizeofT) v.

Definition numeric_limits_min : Z :=
  match kind with
  | Unsigned => 0
  | Signed => - 2 ^ (bits sizeofT - 1)
  | Boolean => 0
  end%Z.

Definition numeric_limits_max : Z :=
  match kind with
  | Unsigned => 2 ^ bits sizeofT - 1
  | Signed => 2 ^ (bits sizeofT - 1) - 1
  | Boolean => 1
  end%Z.

Definition GetMatchingIntegerDictionaryEntry (tb : t) (val : Z) (idx : nat)
    : option Z :=
  let e := table_ tb !!! idx in
  if decide (static_cast (lhs e) = val) then Some (static_cast (rhs e))
  else if decide (static_cast (rhs e) = val) then Some (static_cast (lhs e))
  else None.

(** The four-argument overload. *)
Definition GetMatchingIntegerDictionaryEntry_in (tb : t) (val : Z)
    (idx : nat) (min max : Z) : option Z :=
  match GetMatchingIntegerDictionaryEntry tb val idx with
  | Some result =>
      if decide (result < min ∨ result > max)%Z then None else Some result
  | None => None
  end.

(** [dictionary_set] holds [T]s; the returned [std::vector<ValueType>] is
    built from its elements, each converted to [ValueType]. *)
Definition GetMatchingIntegerDictionaryEntries (tb : t) (val min max : Z)
    : list Z :=
  let dictionary_set :=
    if decide (min = numeric_limits_min ∧ max = numeric_limits_max)
    then
      foldl (λ set i,
               insert_entry set
                 (to_T <$> GetMatchingIntegerDictionaryEntry tb val i))
            ∅ (seq 0 (kTableSize sizeofT))
    else
      foldl (λ set i,
               insert_entry set
                 (to_T <$> GetMatchingIntegerDictionaryEntry_in tb val i
                             min max))
            ∅ (seq 0 (kTableSize sizeofT))
  in static_cast <$> elements dictionary_set.

(** [coin] is the outcome of [RandomBool(prng)]. *)
Definition GetRandomSide (coin : bool) (tb : t) (idx : nat) (min max : Z)
    : option Z :=
  let entry := table_ tb !!! idx in
  if coin then
    let val := static_cast (lhs entry) in
    if decide (min ≤ val ∧ val ≤ max)%Z then Some val else None
  else
    let val := static_cast (lhs entry) in
    if decide (min ≤ val ∧ val ≤ max)%Z then Some val else None.

End WithValueType.
End TableOfRecentCompares_ValueType.

(** ** table_of_recent_compares.h: [IntegerDictionary<T>]

    [torc.Get<sizeof(T)>()] is the integer table [torc] of width [sizeofT];
    [kind] says whether [T] is unsigned, signed or [bool]; the draws of
    [ChooseOffset] and [RandomBool] are arguments. *)

Module IntegerDictionary.
Section WithT.
Variable sizeofT : Z.
Variable kind : value_kind.

(** The object is its vector [dictionary_]. *)
Definition MatchEntriesFromTableOfRecentCompares (val : Z)
    (torc : TableOfRecentCompares.t) (min max : Z) (dictionary_ : list Z)
    : list Z :=
  TableOfRecentCompares_ValueType.GetMatchingIntegerDictionaryEntries
    sizeofT kind torc val min max.

Definition AddEntry (val : Z) (dictionary_ : list Z) : list Z :=
  dictionary_ ++ [val].

Definition IsEmpty (dictionary_ : list Z) : bool :=
  bool_decide (dictionary_ = []).

Definition Size (dictionary_ : list Z) : nat := length dictionary_.

Definition GetRandomSavedEntry (offset : nat) (dictionary_ : list Z) : Z :=
  dictionary_ !!! offset.

Definition GetRandomTORCEntry (val : Z) (random_offset : nat) (coin : bool)
    (torc : TableOfRecentCompares.t) (min max : Z) : option Z :=
  match TableOfRecentCompares_ValueType.GetMatchingIntegerDictionaryEntry_in
          sizeofT kind torc val random_offset min max with
  | Some result => Some result
  | None =>
      TableOfRecentCompares_ValueType.GetRandomSide sizeofT kind coin torc
        random_offset min max
  end.

End WithT.
End IntegerDictionary.

(** ** Vocabulary of the statements *)

Definition is_byte (b : Z) : Prop := (0 ≤ b < 256)%Z.

(** A well-formed array of a [ConcurrentByteSet<kSize>]. *)
Definition bytes_ok (kSize : nat) (bytes_ : list Z) : Prop :=
  length bytes_ = kSize ∧ Forall is_byte bytes_.

(** The non-zero bytes of [bytes_[from .. from + len)], by ascending index,
    each with its value. *)
Definition nonzero_calls (bytes_ : list Z) (from len : nat) : list (nat * Z) :=
  omap (λ i, let v := bytes_ !!! i in
             if decide (v ≠ 0%Z) then Some (i, v) else None)
       (seq from len).

(** Hands a list of calls to a callback, in order. *)
Definition run_calls {S : Type} (action : action_t S) (calls : list (nat * Z))
    (s : S) : option S :=
  run (λ c, action c.1 c.2) calls s.

(** The value last written at [idx] by a sequence of [Set(i, v)] calls. *)
Fixpoint last_write (sets : list (nat * Z)) (idx : nat) : option Z :=
  match sets with
  | [] => None
  | (i, v) :: sets' =>
      match last_write sets' idx with
      | Some w => Some w
      | None => if decide (i = idx) then Some v else None
      end
  end.

(** A loop of exactly [n] iterations, the induction variable starting at [i]
    and advancing by [step]: what [for_lt] amounts to. *)
Fixpoint for_loop {S : Type} (n : nat) (i step : nat)
    (body : nat → S → option S) (s : S) : option S :=
  match n with
  | O => Some s
  | S n' => s' ← body i s; for_loop n' (i + step) step body s'
  end.

(** A callback that always returns. *)
Definition total_action {S : Type} (f : nat → Z → S → S) : action_t S :=
  λ idx value s, Some (f idx value s).

(** A well-formed [TableOfRecentlyComparedBuffers]: 128 slots, each with two
    128-byte arrays and a size below 128. *)
Definition buffers_ok (tb : TableOfRecentlyComparedBuffers.t) : Prop :=
  length (TableOfRecentlyComparedBuffers.table_ tb)
    = TableOfRecentlyComparedBuffers.kTableSize
  ∧ Forall (λ e,
        length (TableOfRecentlyComparedBuffers.buf1 e)
          = TableOfRecentlyComparedBuffers.kEntrySize
        ∧ length (TableOfRecentlyComparedBuffers.buf2 e)
          = TableOfRecentlyComparedBuffers.kEntrySize
        ∧ TableOfRecentlyComparedBuffers.buf_size e
          < TableOfRecentlyComparedBuffers.kEntrySize)
      (TableOfRecentlyComparedBuffers.table_ tb).

(** [Insert] of each pair of [ps], in order. *)
Definition insert_all (sizeofT : Z) (ps : list (Z * Z))
    (tb : TableOfRecentCompares.t) : TableOfRecentCompares.t :=
  foldl (λ acc p, TableOfRecentCompares.Insert sizeofT p.1 p.2 acc) tb ps.

(** The cursor recurrence of [Insert], and the first [n] cursors from [x]. *)
Definition next_index (sizeofT : Z) (x : Z) : Z :=
  Z.land (size_t (x * 37 + 89)) (TableOfRecentCompares.kValueMask sizeofT).

Fixpoint orbit (sizeofT : Z) (n : nat) (x : Z) : list Z :=
  match n with
  | O => []
  | S n' => x :: orbit sizeofT n' (next_index sizeofT x)
  end.

(** The number of slots the cursor cycles through: [kValueMask + 1]. *)
Definition cursor_period (sizeofT : Z) : nat :=
  Z.to_nat (TableOfRecentCompares.kValueMask sizeofT + 1).

(** [push_back] of each feature of [fs], in order. *)
Definition push_all (kSize : nat) (fs : list Z) (a : FeatureArray.t)
    : FeatureArray.t :=
  foldl (λ acc f, FeatureArray.push_back kSize f acc) a fs.

(** [k] calls of the same operation in a row. *)
Fixpoint repeat_call {St : Type} (k : nat) (f : St → option St) (st : St)
    : option St :=
  match k with
  | O => Some st
  | S k' => st' ← f st; repeat_call k' f st'
  end.

(** The two-layer object [b] holds the contents [l]: the lower layer is [l]
    and every non-zero byte of it has its flag set in the upper layer. *)
Definition two_layer_holds (N : nat) (b : LayeredConcurrentByteSet.t)
    (l : list Z) : Prop :=
  LayeredConcurrentByteSet.lower_layer_ b = l
  ∧ bytes_ok N l
  ∧ bytes_ok (N / 64) (LayeredConcurrentByteSet.upper_layer_ b)
  ∧ ∀ i, i < N → l !!! i ≠ 0%Z →
         LayeredConcurrentByteSet.upper_layer_ b !!! (i / 64) ≠ 0%Z.

(** A table of [TableOfRecentCompares<T>]: [kTableSize] slots, every operand
    a value of [T]. *)
Definition entry_ok (sizeofT : Z) (e : TableOfRecentCompares.CompareEntry)
    : Prop :=
  (0 ≤ TableOfRecentCompares.lhs e < 2 ^ TableOfRecentCompares.bits sizeofT)%Z
  ∧ (0 ≤ TableOfRecentCompares.rhs e < 2 ^ TableOfRecentCompares.bits sizeofT)%Z.

Definition table_ok (sizeofT : Z) (tb : TableOfRecentCompares.t) : Prop :=
  length (TableOfRecentCompares.table_ tb)
    = TableOfRecentCompares.kTableSize sizeofT
  ∧ Forall (entry_ok sizeofT) (TableOfRecentCompares.table_ tb).

(** * Properties *)

(** ** Little-endian words *)

Section Words.
Local Open Scope Z_scope.

Lemma le_combine_nonneg (bs : list Z) :
  Forall is_byte bs → 0 ≤ le_combine bs.
Proof.
  induction 1 as [|b bs Hb _ IH]; simpl; [lia|].
  unfold is_byte in Hb. lia.
Qed.

Lemma le_combine_zero (bs : list Z) :
  Forall is_byte bs → le_combine bs = 0 ↔ Forall (λ b, b = 0) bs.
Proof.
  induction 1 as [|b bs Hb Hbs IH]; simpl.
  - split; [constructor|done].
  - pose proof (le_combine_nonneg bs Hbs) as Hr. unfold is_byte in Hb.
    rewrite Forall_cons, <- IH. lia.
Qed.

Lemma le_combine_byte (bs : list Z) (pos : nat) :
  Forall is_byte bs → (pos < length bs)%nat →
  uint8_t (le_combine bs ≫ (Z.of_nat pos * CHAR_BIT)) = bs !!! pos.
Proof.
  intros Hbs. revert pos.
  induction Hbs as [|b bs Hb Hbs IH]; intros pos Hpos; simpl in Hpos; [lia|].
  unfold is_byte in Hb. unfold uint8_t, wrap, CHAR_BIT in *.
  destruct pos as [|pos]; simpl le_combine.
  - rewrite Z.shiftr_0_r. change ((b :: bs) !!! 0%nat) with b.
    rewrite (Z.mul_comm (2 ^ 8)), Z_mod_plus_full. apply Z.mod_small. lia.
  - change ((b :: bs) !!! S pos) with (bs !!! pos).
    rewrite <- (IH pos) by lia.
    replace (Z.of_nat (S pos) * 8) with (8 + Z.of_nat pos * 8) by lia.
    rewrite <- Z.shiftr_shiftr by lia. f_equal. f_equal.
    rewrite Z.shiftr_div_pow2 by lia.
    replace (b + 2 ^ 8 * le_combine bs) with (le_combine bs * 2 ^ 8 + b) by lia.
    rewrite Z.div_add_l by lia. rewrite Z.div_small; lia.
Qed.

End Words.

(** ** Arrays: [memset], the calls of a drain *)

Section Arrays.

Lemma memset_length ptr c n (l : list Z) : length (memset ptr c n l) = length l.
Proof. apply length_inserts. Qed.

Lemma memset_lookup ptr c n (l : list Z) i :
  memset ptr c n l !! i =
    if decide (ptr ≤ i < ptr + n ∧ i < length l) then Some c else l !! i.
Proof.
  unfold memset. case_decide as Hi.
  - rewrite list_lookup_inserts by (rewrite ?length_replicate; lia).
    apply lookup_replicate_2. lia.
  - destruct (decide (i < ptr)); [by apply list_lookup_inserts_lt|].
    destruct (decide (ptr + n ≤ i)).
    + apply list_lookup_inserts_ge. rewrite length_replicate. lia.
    + rewrite !lookup_ge_None_2; [done|lia|rewrite length_inserts; lia].
Qed.

Lemma memset_lookup_total ptr c n (l : list Z) i :
  i < length l →
  memset ptr c n l !!! i = if decide (ptr ≤ i < ptr + n) then c else l !!! i.
Proof.
  intros Hi. rewrite !list_lookup_total_alt, memset_lookup.
  repeat case_decide; try done; lia.
Qed.

Lemma memset_memset ptr c n m (l : list Z) :
  memset (ptr + n) c m (memset ptr c n l) = memset ptr c (n + m) l.
Proof.
  apply list_eq. intros i. rewrite !memset_lookup, memset_length.
  repeat case_decide; try done; lia.
Qed.

Lemma memset_id ptr c n (l : list Z) :
  (∀ i, ptr ≤ i < ptr + n → i < length l → l !!! i = c) →
  memset ptr c n l = l.
Proof.
  intros Hl. apply list_eq. intros i. rewrite memset_lookup.
  case_decide as Hi; [|done].
  rewrite list_lookup_lookup_total_lt by lia. f_equal. symmetry. apply Hl; lia.
Qed.

Lemma memset_ok kSize ptr n (l : list Z) :
  bytes_ok kSize l → bytes_ok kSize (memset ptr 0 n l).
Proof.
  intros [Hlen Hall]. split; [by rewrite memset_length|].
  apply Forall_lookup. intros i b. rewrite memset_lookup.
  case_decide; [intros [= <-]; unfold is_byte; lia|].
  intros Hb. by eapply Forall_lookup_1 in Hb.
Qed.

Lemma bytes_ok_lookup kSize (l : list Z) i :
  bytes_ok kSize l → i < kSize → is_byte (l !!! i).
Proof.
  intros [Hlen Hall] Hi. eapply Forall_lookup_1; [done|].
  apply list_lookup_lookup_total_lt. lia.
Qed.

Lemma nonzero_calls_app (l : list Z) from n m :
  nonzero_calls l from (n + m) =
    nonzero_calls l from n ++ nonzero_calls l (from + n) m.
Proof. unfold nonzero_calls. by rewrite seq_app, omap_app. Qed.

Lemma nonzero_calls_S (l : list Z) from len :
  nonzero_calls l from (S len) =
    (if decide (l !!! from ≠ 0%Z) then [(from, l !!! from)] else [])
    ++ nonzero_calls l (S from) len.
Proof. unfold nonzero_calls. simpl. by case_decide. Qed.

Lemma nonzero_calls_ext (l1 l2 : list Z) from len :
  (∀ i, from ≤ i < from + len → l1 !!! i = l2 !!! i) →
  nonzero_calls l1 from len = nonzero_calls l2 from len.
Proof.
  revert from. induction len as [|len IH]; intros from Heq; [done|].
  rewrite !nonzero_calls_S, (Heq from) by lia.
  rewrite (IH (S from)); [done|]. intros i Hi. apply Heq. lia.
Qed.

Lemma nonzero_calls_zero (l : list Z) from len :
  (∀ i, from ≤ i < from + len → l !!! i = 0%Z) →
  nonzero_calls l from len = [].
Proof.
  revert from. induction len as [|len IH]; intros from Hz; [done|].
  rewrite nonzero_calls_S, (Hz from) by lia.
  rewrite decide_False by auto. apply IH. intros i Hi. apply Hz. lia.
Qed.

Lemma elem_of_nonzero_calls (l : list Z) from len i v :
  (i, v) ∈ nonzero_calls l from len ↔
    from ≤ i < from + len ∧ l !!! i = v ∧ v ≠ 0%Z.
Proof.
  unfold nonzero_calls. rewrite list_elem_of_omap. split.
  - intros (j & Hj & Hv). apply elem_of_seq in Hj.
    case_decide; simplify_eq. auto.
  - intros (Hi & <- & Hv). exists i. rewrite elem_of_seq.
    by rewrite decide_True.
Qed.

Lemma nonzero_calls_indices (l : list Z) from len :
  (nonzero_calls l from len).*1 = filter (λ i, l !!! i ≠ 0%Z) (seq from len).
Proof.
  revert from. induction len as [|len IH]; intros from; [done|].
  rewrite nonzero_calls_S. simpl seq. rewrite filter_cons.
  case_decide; simpl; by rewrite IH.
Qed.

Lemma nonzero_calls_NoDup (l : list Z) from len :
  NoDup (nonzero_calls l from len).*1.
Proof. rewrite nonzero_calls_indices. apply NoDup_filter, NoDup_seq. Qed.

Lemma run_calls_app {S : Type} (action : action_t S) c1 c2 (s : S) :
  run_calls action (c1 ++ c2) s = run_calls action c1 s ≫= run_calls action c2.
Proof.
  unfold run_calls. revert s. induction c1 as [|c c1 IH]; intros s; [done|].
  simpl. destruct (action c.1 c.2 s); simpl; auto.
Qed.

Lemma bind_Some_l {A B : Type} (x : A) (f : A → option B) :
  Some x ≫= f = f x.
Proof. done. Qed.

Lemma for_loop_S {S : Type} n i step (body : nat → S → option S) (s : S) :
  for_loop (Datatypes.S n) i step body s =
    body i s ≫= for_loop n (i + step) step body.
Proof. done. Qed.

Lemma for_lt_empty {S : Type} fuel i stop step
    (body : nat → S → option S) (s : S) :
  stop ≤ i → for_lt fuel i stop step body s = Some s.
Proof. intros. destruct fuel; [done|]. simpl. by rewrite decide_False by lia. Qed.

(** With enough fuel, the loop up to [i + step * n] runs exactly [n] times. *)
Lemma for_lt_count {S : Type} fuel n i step
    (body : nat → S → option S) (s : S) :
  0 < step → n ≤ fuel →
  for_lt fuel i (i + step * n) step body s = for_loop n i step body s.
Proof.
  intros Hstep. revert fuel i s.
  induction n as [|n IH]; intros fuel i s Hfuel.
  - apply for_lt_empty. lia.
  - destruct fuel as [|fuel]; [lia|]. simpl.
    rewrite decide_True by lia.
    destruct (body i s) as [s'|]; [|done]. simpl.
    replace (i + step * Datatypes.S n) with (i + step + step * n) by lia.
    apply IH. lia.
Qed.

Lemma for_lt_total {S : Type} fuel i stop step
    (body : nat → S → option S) (s : S) :
  (∀ j s', is_Some (body j s')) → is_Some (for_lt fuel i stop step body s).
Proof.
  intros Hbody. revert i s.
  induction fuel as [|fuel IH]; intros i s; [by eexists|].
  simpl. case_decide; [|by eexists].
  destruct (Hbody i s) as [s' ->]. apply IH.
Qed.

Lemma run_calls_nil {S : Type} (action : action_t S) (s : S) :
  run_calls action [] s = Some s.
Proof. done. Qed.

Lemma run_calls_singleton {S : Type} (action : action_t S) i v (s : S) :
  run_calls action [(i, v)] s = action i v s.
Proof. unfold run_calls. simpl. by destruct (action i v s). Qed.

Lemma run_calls_record calls tr :
  run_calls record_call calls tr = Some (tr ++ calls).
Proof.
  unfold run_calls. revert tr.
  induction calls as [|c calls IH]; intros tr; simpl.
  - by rewrite app_nil_r.
  - unfold record_call at 1. simpl. rewrite IH.
    destruct c. by rewrite <- app_assoc.
Qed.

End Arrays.

(** ** What a drain of [ConcurrentByteSet] does *)

Section Drain.
Context {St : Type} (action : action_t St).

Lemma load_word_byte (l : list Z) ptr pos :
  Forall is_byte l → ptr + 8 ≤ length l → pos < 8 →
  uint8_t (ConcurrentByteSet.load_word ptr l ≫ (Z.of_nat pos * CHAR_BIT))
    = l !!! (ptr + pos).
Proof.
  intros Hl Hptr Hpos. unfold ConcurrentByteSet.load_word.
  rewrite le_combine_byte.
  - by rewrite lookup_total_take_lt, lookup_total_drop.
  - by apply Forall_take, Forall_drop.
  - rewrite length_take, length_drop. unfold ConcurrentByteSet.kWordSize. lia.
Qed.

Lemma load_word_zero (l : list Z) ptr :
  Forall is_byte l → ptr + 8 ≤ length l →
  ConcurrentByteSet.load_word ptr l = 0%Z ↔
    ∀ i, ptr ≤ i < ptr + 8 → l !!! i = 0%Z.
Proof.
  intros Hl Hptr. split.
  - intros Hw i Hi. replace i with (ptr + (i - ptr)) by lia.
    rewrite <- load_word_byte, Hw by (done || lia).
    by rewrite Z.shiftr_0_l.
  - intros Hz. unfold ConcurrentByteSet.load_word.
    apply le_combine_zero; [by apply Forall_take, Forall_drop|].
    apply Forall_lookup. intros j b Hj.
    pose proof (lookup_lt_Some _ _ _ Hj) as Hlt.
    rewrite length_take in Hlt. unfold ConcurrentByteSet.kWordSize in *.
    apply list_lookup_total_correct in Hj as <-.
    rewrite lookup_total_take_lt, lookup_total_drop by lia.
    apply Hz. lia.
Qed.

Lemma byte_body_spec (l : list Z) ptr pos (s : St) :
  Forall is_byte l → ptr + 8 ≤ length l → pos < 8 →
  ConcurrentByteSet.byte_body action ptr (ConcurrentByteSet.load_word ptr l)
    pos s
  = if decide (l !!! (ptr + pos) ≠ 0%Z)
    then action (ptr + pos) (l !!! (ptr + pos)) s else Some s.
Proof.
  intros. unfold ConcurrentByteSet.byte_body. by rewrite load_word_byte.
Qed.

Lemma byte_loop_spec (l : list Z) ptr n p (s : St) :
  Forall is_byte l → ptr + 8 ≤ length l → p + n ≤ 8 →
  for_loop n p 1
    (ConcurrentByteSet.byte_body action ptr (ConcurrentByteSet.load_word ptr l)) s
  = run_calls action (nonzero_calls l (ptr + p) n) s.
Proof.
  intros Hl Hptr. revert p s.
  induction n as [|n IH]; intros p s Hp; [done|].
  rewrite nonzero_calls_S, run_calls_app, for_loop_S.
  rewrite byte_body_spec by (done || lia).
  replace (S (ptr + p)) with (ptr + (p + 1)) by lia.
  case_decide.
  - rewrite run_calls_singleton.
    destruct (action (ptr + p) (l !!! (ptr + p)) s); simpl; [|done].
    apply IH. lia.
  - simpl. apply IH. lia.
Qed.

Lemma word_body_spec kSize (l : list Z) ptr (s : St) :
  bytes_ok kSize l → ptr + 8 ≤ kSize →
  ConcurrentByteSet.word_body action ptr (l, s) =
    s' ← run_calls action (nonzero_calls l ptr 8) s;
    Some (memset ptr 0 8 l, s').
Proof.
  intros [Hlen Hl] Hptr. unfold ConcurrentByteSet.word_body.
  case_decide as Hw.
  - rewrite load_word_zero in Hw by (done || lia).
    rewrite nonzero_calls_zero by done.
    rewrite memset_id; [done|]. intros i Hi _. by apply Hw.
  - unfold ConcurrentByteSet.kWordSize.
    rewrite (for_lt_count 8 8 0 1) by lia.
    rewrite byte_loop_spec by (done || lia).
    by rewrite Nat.add_0_r.
Qed.

Lemma word_loop_spec kSize n (l : list Z) ptr (s : St) :
  bytes_ok kSize l → ptr + 8 * n ≤ kSize →
  for_loop n ptr ConcurrentByteSet.kWordSize
    (ConcurrentByteSet.word_body action) (l, s) =
    s' ← run_calls action (nonzero_calls l ptr (8 * n)) s;
    Some (memset ptr 0 (8 * n) l, s').
Proof.
  revert l ptr s. induction n as [|n IH]; intros l ptr s Hok Hptr.
  - simpl. rewrite memset_id; [done|]. lia.
  - rewrite for_loop_S, (word_body_spec kSize) by (done || lia).
    replace (8 * S n) with (8 + 8 * n) by lia.
    rewrite nonzero_calls_app, run_calls_app.
    destruct (run_calls action (nonzero_calls l ptr 8) s) as [s1|]; simpl;
      [|done].
    rewrite IH;
      [|by apply memset_ok|unfold ConcurrentByteSet.kWordSize; lia].
    unfold ConcurrentByteSet.kWordSize. rewrite memset_memset.
    rewrite (nonzero_calls_ext (memset ptr 0 8 l) l); [done|].
    intros i Hi. destruct Hok as [Hlen _].
    rewrite memset_lookup_total by lia. rewrite decide_False; [done|lia].
Qed.

(** A drain of an aligned range inside the array hands the non-zero bytes of
    the range to [action], by ascending index, and zeroes the range. *)
Lemma ForEachNonZeroByte_spec kSize from to (l : list Z) (s : St) :
  bytes_ok kSize l →
  from `mod` 64 = 0 → to `mod` 64 = 0 → from ≤ to → to ≤ kSize →
  ConcurrentByteSet.ForEachNonZeroByte kSize action from to l s =
    s' ← run_calls action (nonzero_calls l from (to - from)) s;
    Some (memset from 0 (to - from) l, s').
Proof.
  intros Hok Hfrom Hto Hle Hsize.
  unfold ConcurrentByteSet.ForEachNonZeroByte,
    ConcurrentByteSet.kSizeMultiple.
  rewrite !decide_False by lia.
  pose proof (Nat.div_mod_eq from 64). pose proof (Nat.div_mod_eq to 64).
  set (n := (to / 64 - from / 64) * 8).
  assert (to - from = 8 * n) as Hn by (unfold n; lia).
  replace to with (from + ConcurrentByteSet.kWordSize * n) at 2
    by (unfold ConcurrentByteSet.kWordSize; lia).
  rewrite for_lt_count by (unfold ConcurrentByteSet.kWordSize; lia).
  rewrite (word_loop_spec kSize) by (done || lia).
  by rewrite <- Hn.
Qed.

End Drain.

(** ** Writers of a [ConcurrentByteSet] *)

Section Writers.
Variable kSize : nat.

Lemma clear_ok (b0 : list Z) : bytes_ok kSize (ConcurrentByteSet.clear kSize b0).
Proof.
  split; [apply length_replicate|].
  apply Forall_replicate. unfold is_byte. lia.
Qed.

Lemma clear_lookup (b0 : list Z) i :
  i < kSize → ConcurrentByteSet.clear kSize b0 !!! i = 0%Z.
Proof. intros. by apply lookup_total_replicate_2. Qed.

Lemma insert_ok (l : list Z) i v :
  bytes_ok kSize l → is_byte v → bytes_ok kSize (<[i := v]> l).
Proof.
  intros [Hlen Hl] Hv. split; [by rewrite length_insert|].
  by apply Forall_insert.
Qed.

Lemma Set_spec (l : list Z) i v :
  i < kSize → ConcurrentByteSet.Set_ kSize i v l = Some (<[i := v]> l).
Proof. intros. unfold ConcurrentByteSet.Set_. by rewrite decide_False by lia. Qed.

Lemma SaturatedIncrement_spec (l : list Z) i :
  bytes_ok kSize l → i < kSize →
  ConcurrentByteSet.SaturatedIncrement kSize i l =
    Some (<[i := Z.min (l !!! i + 1) 255]> l).
Proof.
  intros Hok Hi. pose proof (bytes_ok_lookup _ _ _ Hok Hi) as Hb.
  unfold is_byte in Hb. unfold ConcurrentByteSet.SaturatedIncrement.
  rewrite decide_False by lia. case_decide as Hc.
  - unfold uint8_t, wrap. rewrite Z.mod_small by lia.
    do 2 f_equal. lia.
  - f_equal. symmetry. apply list_insert_id.
    destruct Hok as [Hlen _].
    rewrite list_lookup_lookup_total_lt by lia. f_equal. lia.
Qed.

Lemma apply_op_spec (op : write_op) (l : list Z) :
  bytes_ok kSize l → op_ok kSize op →
  ∃ l', apply_op kSize op l = Some l' ∧ bytes_ok kSize l'.
Proof.
  intros Hok [Hi Hv]. destruct op as [i v|i]; simpl in *.
  - rewrite Set_spec by done. eauto using insert_ok.
  - rewrite SaturatedIncrement_spec by done. eexists. split; [done|].
    apply insert_ok; [done|].
    pose proof (bytes_ok_lookup _ _ _ Hok Hi) as Hb.
    unfold is_byte in *. lia.
Qed.

Lemma run_sets_spec (sets : list (nat * Z)) (l : list Z) :
  bytes_ok kSize l →
  Forall (λ c, c.1 < kSize ∧ is_byte c.2) sets →
  ∃ l', run (λ c, ConcurrentByteSet.Set_ kSize c.1 c.2) sets l = Some l'
        ∧ bytes_ok kSize l'
        ∧ ∀ i, l' !!! i = default (l !!! i) (last_write sets i).
Proof.
  intros Hok Hsets. revert l Hok.
  induction Hsets as [|[j v] sets [Hj Hv] _ IH]; intros l Hok; simpl in *.
  - eauto.
  - rewrite Set_spec by done. simpl.
    destruct (IH (<[j := v]> l)) as (l' & Hrun & Hok' & Hl');
      [by apply insert_ok|].
    exists l'. split_and!; [done..|]. intros i. rewrite Hl'.
    destruct (last_write sets i); simpl; [done|].
    destruct Hok as [Hlen _]. case_decide; subst; simpl.
    + by rewrite list_lookup_total_insert_eq by lia.
    + by rewrite list_lookup_total_insert_ne.
Qed.

Lemma last_write_elem_of (sets : list (nat * Z)) i v :
  last_write sets i = Some v → (i, v) ∈ sets.
Proof.
  induction sets as [|[j w] sets IH]; simpl; [done|].
  destruct (last_write sets i) eqn:Hl.
  - intros [= <-]. right. by apply IH.
  - case_decide; [|done]. intros [= <-]. subst. left.
Qed.

End Writers.

(** ** Claims about [ConcurrentByteSet] *)

Lemma drain_total {St : Type} (f : nat → Z → St → St) fuel ptr stop
    (l : list Z) (s : St) :
  is_Some (for_lt fuel ptr stop ConcurrentByteSet.kWordSize
             (ConcurrentByteSet.word_body (total_action f)) (l, s)).
Proof.
  apply for_lt_total. intros j [l' s'].
  unfold ConcurrentByteSet.word_body. case_decide; [by eexists|].
  destruct (for_lt_total ConcurrentByteSet.kWordSize 0
              ConcurrentByteSet.kWordSize 1
              (ConcurrentByteSet.byte_body (total_action f) j
                 (ConcurrentByteSet.load_word j l')) s') as [s'' ->].
  - intros pos s''. unfold ConcurrentByteSet.byte_body.
    case_decide; by eexists.
  - by eexists.
Qed.

(** A drain whose range is empty ([to ≤ from]) passes the checks and then
    does nothing. *)
Lemma drain_empty_range {St : Type} kSize (action : action_t St) from to
    (l : list Z) (s : St) :
  from `mod` 64 = 0 → to `mod` 64 = 0 → to ≤ kSize → to ≤ from →
  ConcurrentByteSet.ForEachNonZeroByte kSize action from to l s = Some (l, s).
Proof.
  intros Hfrom Hto Hsize Hle.
  unfold ConcurrentByteSet.ForEachNonZeroByte, ConcurrentByteSet.kSizeMultiple.
  rewrite !decide_False by lia.
  by apply for_lt_empty.
Qed.

(** C1.  For [N] a multiple of 64 and any sequence of [Set(i, v)] calls
    (each [i < N], each [v] a byte) on a cleared [ConcurrentByteSet<N>], the
    calls succeed and [ForEachNonZeroByte(action, 0, N)] returns having invoked
    [action] at pairwise distinct indices, with [(i, v)] among the calls
    exactly when the value last written at [i] is [v] and [v ≠ 0]; a second
    drain right after it invokes [action] zero times. *)
Theorem drain_after_sets (N : nat) (sets : list (nat * Z)) (b0 : list Z) :
  N `mod` 64 = 0 →
  Forall (λ c, c.1 < N ∧ is_byte c.2) sets →
  ∃ l calls l',
    run (λ c, ConcurrentByteSet.Set_ N c.1 c.2) sets
        (ConcurrentByteSet.clear N b0) = Some l
    ∧ ConcurrentByteSet.ForEachNonZeroByte N record_call 0 N l []
      = Some (l', calls)
    ∧ NoDup calls.*1
    ∧ (∀ i v, (i, v) ∈ calls ↔ last_write sets i = Some v ∧ v ≠ 0%Z)
    ∧ ∃ l'', ConcurrentByteSet.ForEachNonZeroByte N record_call 0 N l' []
             = Some (l'', []).
Proof.
  intros HN Hsets.
  destruct (run_sets_spec N sets (ConcurrentByteSet.clear N b0))
    as (l & Hrun & Hok & Hl); [apply clear_ok|done|].
  exists l, (nonzero_calls l 0 N), (memset 0 0 N l).
  assert (bytes_ok N (memset 0 0 N l)) as Hok' by by apply memset_ok.
  rewrite !ForEachNonZeroByte_spec by (done || lia).
  rewrite !run_calls_record, Nat.sub_0_r. simpl.
  split_and!; [done|done|apply nonzero_calls_NoDup| |].
  - intros i v. rewrite elem_of_nonzero_calls, Hl. split.
    + intros (Hi & Hv & Hnz). destruct (last_write sets i); simpl in *.
      * by subst.
      * rewrite clear_lookup in Hv by lia. congruence.
    + intros [Hw Hnz]. rewrite Hw. simpl. split_and!; [lia| |done..].
      apply last_write_elem_of in Hw.
      rewrite Forall_forall in Hsets. by destruct (Hsets _ Hw).
  - eexists. do 2 f_equal. apply nonzero_calls_zero. intros i Hi.
    destruct Hok as [Hlen _].
    rewrite memset_lookup_total by lia. rewrite decide_True; [done|lia].
Qed.

(** C1, scenario "drain basic": [N = 128], five writes. *)
Lemma drain_after_sets_witness :
  ∃ l calls l',
    run (λ c, ConcurrentByteSet.Set_ 128 c.1 c.2)
        [(0, 7%Z); (1, 0%Z); (63, 5%Z); (64, 9%Z); (127, 1%Z)]
        (ConcurrentByteSet.clear 128 []) = Some l
    ∧ ConcurrentByteSet.ForEachNonZeroByte 128 record_call 0 128 l []
      = Some (l', calls)
    ∧ NoDup calls.*1
    ∧ (∀ i v, (i, v) ∈ calls ↔
         last_write [(0, 7%Z); (1, 0%Z); (63, 5%Z); (64, 9%Z); (127, 1%Z)] i
           = Some v ∧ v ≠ 0%Z)
    ∧ ∃ l'', ConcurrentByteSet.ForEachNonZeroByte 128 record_call 0 128 l' []
             = Some (l'', []).
Proof.
  apply (drain_after_sets 128); [reflexivity|].
  repeat constructor; simpl; lia.
Defined.

(** The same scenario, run. *)
Example drain_basic :
  (l ← run (λ c, ConcurrentByteSet.Set_ 128 c.1 c.2)
         [(0, 7%Z); (1, 0%Z); (63, 5%Z); (64, 9%Z); (127, 1%Z)]
         (ConcurrentByteSet.clear 128 []);
   r ← ConcurrentByteSet.ForEachNonZeroByte 128 record_call 0 128 l [];
   Some r.2)
  = Some [(0, 7%Z); (63, 5%Z); (64, 9%Z); (127, 1%Z)].
Proof. vm_compute. reflexivity. Qed.

(** C4, as stated, fails: with [N = 64], [from = 128] (a multiple of 64
    beyond [N]) and [to = 0] the call returns without a trap. *)
Lemma drain_from_beyond_size_returns :
  ¬ (∀ from to : nat,
       from `mod` 64 ≠ 0 ∨ to `mod` 64 ≠ 0 ∨ 64 < from ∨ 64 < to →
       ConcurrentByteSet.ForEachNonZeroByte 64 record_call from to
         (ConcurrentByteSet.clear 64 []) [] = None).
Proof.
  intros Hclaim. specialize (Hclaim 128 0).
  rewrite drain_empty_range in Hclaim by (reflexivity || lia).
  discriminate Hclaim. right. right. left. lia.
Qed.

(** C4: the code has no check of [from] against [kSize].
    [ForEachNonZeroByte(action, from, to)] traps whenever [from] or [to] is
    not a multiple of 64 or [to > N], for every [from] (these checks come
    before any pointer is formed), and for [from ≤ N] these are its only
    traps.  But a [from] beyond [N] is not rejected: with [N = 64],
    [from = 128] and [to = 0] the three checks pass, the loop starts at the
    out-of-bounds pointer [&bytes_[128]], which is not below
    [end = &bytes_[0]], and the call returns, the array untouched and
    [action] never invoked, where an abort is required. *)
Theorem drain_from_unchecked {St : Type} (N : nat) (f : nat → Z → St → St) :
  (∀ from to (l : list Z) s,
     from `mod` 64 ≠ 0 ∨ to `mod` 64 ≠ 0 ∨ N < to →
     ConcurrentByteSet.ForEachNonZeroByte N (total_action f) from to l s
     = None)
  ∧ (∀ from to (l : list Z) s,
       from ≤ N →
       ConcurrentByteSet.ForEachNonZeroByte N (total_action f) from to l s
       = None
       ↔ from `mod` 64 ≠ 0 ∨ to `mod` 64 ≠ 0 ∨ N < to)
  ∧ (∀ (l : list Z) s,
       ConcurrentByteSet.ForEachNonZeroByte 64 (total_action f) 128 0 l s
       = Some (l, s)).
Proof.
  assert (∀ from to (l : list Z) s,
            ConcurrentByteSet.ForEachNonZeroByte N (total_action f) from to l s
            = None
            ↔ from `mod` 64 ≠ 0 ∨ to `mod` 64 ≠ 0 ∨ N < to) as Hiff.
  { intros from to l s.
    unfold ConcurrentByteSet.ForEachNonZeroByte,
      ConcurrentByteSet.kSizeMultiple.
    repeat case_decide; try (split; [auto|done]).
    destruct (drain_total f (to - from) from to l s) as [r ->].
    split; [done|]. lia. }
  split; [|split].
  - intros from to l s Hbad. by apply Hiff.
  - intros from to l s _. apply Hiff.
  - intros l s. apply drain_empty_range; (reflexivity || lia).
Qed.

Lemma repeat_increment (N i k : nat) (l : list Z) :
  bytes_ok N l → i < N →
  ∃ l', repeat_call k (ConcurrentByteSet.SaturatedIncrement N i) l = Some l'
        ∧ bytes_ok N l'
        ∧ l' !!! i = Z.min (l !!! i + Z.of_nat k) 255.
Proof.
  intros Hok Hi. revert l Hok. induction k as [|k IH]; intros l Hok.
  - exists l. split_and!; [done..|].
    pose proof (bytes_ok_lookup _ _ _ Hok Hi) as Hb. unfold is_byte in Hb. lia.
  - simpl. rewrite SaturatedIncrement_spec by done. simpl.
    pose proof (bytes_ok_lookup _ _ _ Hok Hi) as Hb. unfold is_byte in Hb.
    destruct (IH (<[i := Z.min (l !!! i + 1) 255]> l)) as (l' & Hrun & Hok' & Hl').
    { apply insert_ok; [done|]. unfold is_byte. lia. }
    exists l'. split_and!; [done..|]. rewrite Hl'.
    destruct Hok as [Hlen _].
    rewrite list_lookup_total_insert_eq by lia. lia.
Qed.

(** C5.  For [i < N], [k] calls of [SaturatedIncrement(i)] on a cleared
    [ConcurrentByteSet<N>] all return and leave byte [i] at [min(k, 255)]. *)
Theorem saturated_increment_count (N i k : nat) (b0 : list Z) :
  i < N →
  ∃ l, repeat_call k (ConcurrentByteSet.SaturatedIncrement N i)
         (ConcurrentByteSet.clear N b0) = Some l
       ∧ l !! i = Some (Z.min (Z.of_nat k) 255).
Proof.
  intros Hi.
  destruct (repeat_increment N i k (ConcurrentByteSet.clear N b0))
    as (l & Hrun & [Hlen _] & Hl); [apply clear_ok|done|].
  exists l. split; [done|].
  rewrite list_lookup_lookup_total_lt by lia.
  rewrite Hl, clear_lookup by done. done.
Qed.

(** C5, scenario "saturation": 300 increments of byte 10 of a 64-byte set. *)
Lemma saturated_increment_count_witness :
  ∃ l, repeat_call 300 (ConcurrentByteSet.SaturatedIncrement 64 10)
         (ConcurrentByteSet.clear 64 []) = Some l
       ∧ l !! 10 = Some (Z.min (Z.of_nat 300) 255).
Proof. apply (saturated_increment_count 64 10 300). lia. Defined.

(** C9.  The layered drain checks its bounds against
    [kSizeMultiple = 64 * 64]: it traps whenever [from] or [to] is not a
    multiple of 4096, whatever else holds of them. *)
Theorem two_layer_drain_alignment {St : Type} (N : nat) (action : action_t St)
    (from to : nat) (b : LayeredConcurrentByteSet.t) (s : St) :
  from `mod` 4096 ≠ 0 ∨ to `mod` 4096 ≠ 0 →
  TwoLayerConcurrentByteSet.ForEachNonZeroByte N action from to b s = None.
Proof.
  intros Hmis.
  unfold TwoLayerConcurrentByteSet.ForEachNonZeroByte,
    LayeredConcurrentByteSet.ForEachNonZeroByte.
  change (LayeredConcurrentByteSet.kSizeMultiple) with 4096.
  repeat case_decide; try done. lia.
Qed.

(** C9, at bounds the single layer accepts: [from = 64], [to = N = 4096]. *)
Lemma two_layer_drain_alignment_witness :
  TwoLayerConcurrentByteSet.ForEachNonZeroByte 4096 record_call 64 4096
    (TwoLayerConcurrentByteSet.clear 4096 (LayeredConcurrentByteSet.mk [] []))
    [] = None.
Proof. apply two_layer_drain_alignment. left. by vm_compute. Defined.

Example single_layer_accepts_64_aligned :
  ConcurrentByteSet.ForEachNonZeroByte 4096 record_call 64 4096
    (ConcurrentByteSet.clear 4096 []) []
  = Some (ConcurrentByteSet.clear 4096 [], []).
Proof. by vm_compute. Qed.

(** ** The two-layer set against the single-layer set *)

Section TwoLayer.
Variable N : nat.
Hypothesis N_pos : 0 < N.
Hypothesis N_aligned : N `mod` 4096 = 0.

Let U : nat := N / 64.

Lemma upper_size : N = 64 * U.
Proof.
  unfold U. pose proof (Nat.div_mod_eq N 4096) as H1.
  pose proof (Nat.div_mod_eq N 64) as H2.
  assert (N `mod` 64 = 0); [|lia].
  rewrite H1, N_aligned, Nat.add_0_r.
  replace (4096 * (N / 4096)) with ((N / 4096 * 64) * 64) by lia.
  apply Nat.Div0.mod_mul.
Qed.

Lemma upper_aligned : U `mod` 64 = 0.
Proof.
  pose proof upper_size as HU. pose proof (Nat.div_mod_eq N 4096) as H1.
  replace U with ((N / 4096) * 64) by lia. apply Nat.Div0.mod_mul.
Qed.

Lemma layer_ratio : LayeredConcurrentByteSet.kLayerRatio N (N / 64) = 64.
Proof.
  unfold LayeredConcurrentByteSet.kLayerRatio, ConcurrentByteSet.kSizeInBytes.
  fold U. pose proof upper_size as HU.
  rewrite HU at 1. apply Nat.div_mul. lia.
Qed.

Local Abbreviation holds := (two_layer_holds N).

Lemma holds_clear b0 l0 :
  holds (TwoLayerConcurrentByteSet.clear N b0) (ConcurrentByteSet.clear N l0).
Proof.
  split_and!; [done|apply clear_ok|apply clear_ok|].
  intros i Hi. by rewrite clear_lookup.
Qed.

Lemma holds_write b (l : list Z) i v :
  holds b l → i < N → is_byte v →
  holds (LayeredConcurrentByteSet.mk
           (<[i / 64 := 1%Z]> (LayeredConcurrentByteSet.upper_layer_ b))
           (<[i := v]> l))
        (<[i := v]> l).
Proof.
  intros (Hlow & Hok & Hup & Hflag) Hi Hv. pose proof upper_size as HU.
  split_and!;
    cbn [LayeredConcurrentByteSet.upper_layer_
         LayeredConcurrentByteSet.lower_layer_];
    [done|by apply insert_ok| |].
  - apply insert_ok; [done|]. unfold is_byte. lia.
  - intros j Hj. destruct Hup as [Hlen _].
    assert (i / 64 < U) by (apply Nat.Div0.div_lt_upper_bound; lia).
    destruct (decide (i / 64 = j / 64)) as [<-|Hne].
    + rewrite list_lookup_total_insert_eq by lia. done.
    + rewrite (list_lookup_total_insert_ne _ (i / 64)) by done.
      rewrite list_lookup_total_insert_ne by congruence. by apply Hflag.
Qed.

Lemma apply_op2_spec (op : write_op) b (l : list Z) :
  holds b l → op_ok N op →
  ∃ b' l', apply_op2 N op b = Some b' ∧ apply_op N op l = Some l'
           ∧ holds b' l'.
Proof.
  intros Hb [Hi Hv]. pose proof Hb as (Hlow & Hok & Hup & Hflag).
  pose proof upper_size as HU.
  assert (op_index op / 64 < N / 64)
    by (apply Nat.Div0.div_lt_upper_bound; fold U; lia).
  destruct op as [i v|i]; simpl in *.
  - unfold TwoLayerConcurrentByteSet.Set_, LayeredConcurrentByteSet.Set_.
    rewrite layer_ratio, decide_False by lia.
    rewrite !Set_spec by done. simpl. rewrite Hlow.
    eexists _, _. split_and!; [done..|]. by apply holds_write.
  - unfold TwoLayerConcurrentByteSet.SaturatedIncrement,
      LayeredConcurrentByteSet.SaturatedIncrement.
    rewrite layer_ratio, decide_False by lia.
    rewrite Set_spec by done. rewrite Hlow.
    rewrite SaturatedIncrement_spec by done. simpl.
    eexists _, _. split_and!; [done..|]. apply holds_write; [done..|].
    pose proof (bytes_ok_lookup _ _ _ Hok Hi) as Hbyte.
    unfold is_byte in *. lia.
Qed.

Lemma run_ops_spec (ops : list write_op) b (l : list Z) :
  holds b l → Forall (op_ok N) ops →
  ∃ b' l', run (apply_op2 N) ops b = Some b' ∧ run (apply_op N) ops l = Some l'
           ∧ holds b' l'.
Proof.
  intros Hb Hops. revert b l Hb.
  induction Hops as [|op ops Hop _ IH]; intros b l Hb; simpl; [by eauto|].
  destruct (apply_op2_spec op b l) as (b1 & l1 & -> & -> & Hb1); [done..|].
  simpl. by apply IH.
Qed.

Lemma drain_chunk_spec j v (lower : list Z) tr :
  bytes_ok N lower → 64 * j + 64 ≤ N →
  LayeredConcurrentByteSet.drain_chunk N (N / 64) record_call j v (lower, tr)
  = Some (memset (64 * j) 0 64 lower,
          tr ++ nonzero_calls lower (64 * j) 64).
Proof.
  intros Hok Hj. unfold LayeredConcurrentByteSet.drain_chunk. cbn [fst snd].
  rewrite layer_ratio.
  rewrite ForEachNonZeroByte_spec;
    [|done|apply Nat.Div0.mod_mul
     |replace (j * 64 + 64) with ((j + 1) * 64) by lia;
      apply Nat.Div0.mod_mul|lia|lia].
  rewrite run_calls_record, bind_Some_l.
  replace (j * 64 + 64 - j * 64) with 64 by lia.
  by replace (j * 64) with (64 * j) by lia.
Qed.

(** Draining the flagged chunks [j0 .. j0 + n) one by one records the same
    calls, and leaves the same lower layer, as one drain of the whole range. *)
Lemma drain_chunks_spec n j0 (upper lower : list Z) tr :
  bytes_ok N lower → 64 * (j0 + n) ≤ N →
  (∀ i, 64 * j0 ≤ i < 64 * (j0 + n) → lower !!! i ≠ 0%Z →
        upper !!! (i / 64) ≠ 0%Z) →
  run_calls (LayeredConcurrentByteSet.drain_chunk N (N / 64) record_call)
    (nonzero_calls upper j0 n) (lower, tr)
  = Some (memset (64 * j0) 0 (64 * n) lower,
          tr ++ nonzero_calls lower (64 * j0) (64 * n)).
Proof.
  revert j0 lower tr. induction n as [|n IH]; intros j0 lower tr Hok Hn Hflag.
  - replace (64 * 0) with 0 by lia. simpl.
    rewrite memset_id by lia. by rewrite app_nil_r.
  - rewrite nonzero_calls_S, run_calls_app.
    replace (64 * S n) with (64 + 64 * n) by lia.
    rewrite nonzero_calls_app, <- memset_memset.
    replace (64 * j0 + 64) with (64 * S j0) by lia.
    assert (∀ l' : list Z, length l' = N →
              (∀ i, 64 * S j0 ≤ i < 64 * (S j0 + n) → l' !!! i = lower !!! i) →
              ∀ i, 64 * S j0 ≤ i < 64 * (S j0 + n) → l' !!! i ≠ 0%Z →
                   upper !!! (i / 64) ≠ 0%Z) as Hrest.
    { intros l' _ Hsame i Hi. rewrite Hsame by done. apply Hflag. lia. }
    case_decide as Hup.
    + rewrite run_calls_singleton, drain_chunk_spec, bind_Some_l by (done || lia).
      assert (∀ i, 64 * S j0 ≤ i < 64 * (S j0 + n) →
                memset (64 * j0) 0 64 lower !!! i = lower !!! i) as Hsame.
      { intros i Hi. destruct Hok as [Hlen _].
        rewrite memset_lookup_total by lia. rewrite decide_False; [done|lia]. }
      rewrite IH; [|by apply memset_ok|lia|].
      * rewrite (nonzero_calls_ext (memset (64 * j0) 0 64 lower) lower)
          by (intros; apply Hsame; lia).
        by rewrite app_assoc.
      * apply Hrest; [|done]. rewrite memset_length. by destruct Hok.
    + rewrite run_calls_nil, bind_Some_l.
      assert (∀ i, 64 * j0 ≤ i < 64 * j0 + 64 → lower !!! i = 0%Z) as Hzero.
      { intros i Hi. destruct (decide (lower !!! i = 0%Z)) as [|Hnz]; [done|].
        apply Hflag in Hnz; [|lia]. exfalso. apply Hnz.
        replace (i / 64) with j0; [done|].
        apply Nat.div_unique with (i - 64 * j0); lia. }
      rewrite (nonzero_calls_zero lower (64 * j0) 64) by done.
      rewrite (memset_id (64 * j0)) by (intros; by apply Hzero).
      rewrite IH; [done..|lia|]. apply Hrest; [by destruct Hok|done].
Qed.

(** The calls of a full drain of the two-layer set. *)
Lemma two_layer_drain_spec b (l : list Z) :
  holds b l →
  ∃ b', TwoLayerConcurrentByteSet.ForEachNonZeroByte N record_call 0 N b []
        = Some (b', nonzero_calls l 0 N).
Proof.
  intros (Hlow & Hok & Hup & Hflag). pose proof upper_size as HU.
  unfold TwoLayerConcurrentByteSet.ForEachNonZeroByte,
    LayeredConcurrentByteSet.ForEachNonZeroByte.
  change (LayeredConcurrentByteSet.kSizeMultiple) with 4096.
  rewrite layer_ratio, N_aligned, Nat.Div0.mod_0_l.
  rewrite decide_False by lia. rewrite !decide_False by auto.
  simpl. fold U.
  rewrite ForEachNonZeroByte_spec;
    [|done|done|apply upper_aligned|lia|lia].
  rewrite Nat.sub_0_r, Hlow.
  rewrite (drain_chunks_spec U 0); [| done | lia | intros; apply Hflag; lia ].
  simpl. eexists. do 3 f_equal. lia.
Qed.

End TwoLayer.

(** C2.  For [N] a positive multiple of 4096 (the sizes at which
    [TwoLayerConcurrentByteSet<N>] instantiates) and any sequence of [Set] and
    [SaturatedIncrement] calls with indices below [N], applied to a cleared
    two-layer set and to a cleared single-layer set: both runs succeed, both
    full-range drains return, and the calls the two drains make to [action]
    are the same multiset of [(index, value)] pairs. *)
Theorem two_layer_same_calls (N : nat) (ops : list write_op)
    (b0 : LayeredConcurrentByteSet.t) (l0 : list Z) :
  0 < N → N `mod` 4096 = 0 → Forall (op_ok N) ops →
  ∃ b l b' l' calls2 calls1,
    run (apply_op2 N) ops (TwoLayerConcurrentByteSet.clear N b0) = Some b
    ∧ run (apply_op N) ops (ConcurrentByteSet.clear N l0) = Some l
    ∧ TwoLayerConcurrentByteSet.ForEachNonZeroByte N record_call 0 N b []
      = Some (b', calls2)
    ∧ ConcurrentByteSet.ForEachNonZeroByte N record_call 0 N l []
      = Some (l', calls1)
    ∧ calls2 ≡ₚ calls1.
Proof.
  intros Hpos HN Hops.
  destruct (run_ops_spec N Hpos HN ops (TwoLayerConcurrentByteSet.clear N b0)
              (ConcurrentByteSet.clear N l0))
    as (b & l & Hrun2 & Hrun1 & Hb); [apply holds_clear|done|].
  destruct (two_layer_drain_spec N Hpos HN b l Hb) as [b' Hdrain2].
  pose proof Hb as (_ & Hok & _).
  exists b, l, b', (memset 0 0 N l), (nonzero_calls l 0 N), (nonzero_calls l 0 N).
  split_and!; [done..| |done].
  rewrite ForEachNonZeroByte_spec; [|done|done| |lia|lia].
  - by rewrite run_calls_record, Nat.sub_0_r.
  - assert (N = 64 * (N / 64)) as -> by by apply upper_size.
    rewrite Nat.mul_comm. apply Nat.Div0.mod_mul.
Qed.

(** C2 at [N = 4096]. *)
Lemma two_layer_same_calls_witness :
  ∃ b l b' l' calls2 calls1,
    run (apply_op2 4096) [OpSet 2050 42; OpInc 10; OpInc 10; OpSet 5 0]
        (TwoLayerConcurrentByteSet.clear 4096
           (LayeredConcurrentByteSet.mk [] [])) = Some b
    ∧ run (apply_op 4096) [OpSet 2050 42; OpInc 10; OpInc 10; OpSet 5 0]
        (ConcurrentByteSet.clear 4096 []) = Some l
    ∧ TwoLayerConcurrentByteSet.ForEachNonZeroByte 4096 record_call 0 4096 b []
      = Some (b', calls2)
    ∧ ConcurrentByteSet.ForEachNonZeroByte 4096 record_call 0 4096 l []
      = Some (l', calls1)
    ∧ calls2 ≡ₚ calls1.
Proof.
  apply (two_layer_same_calls 4096); [lia|reflexivity|].
  repeat constructor; simpl; lia.
Defined.

(** Scenario "two-layer efficiency": one write at 2050 sets upper byte 32 and
    the drain reports that single byte. *)
Example two_layer_scenario :
  (b ← TwoLayerConcurrentByteSet.Set_ 4096 2050 42
         (TwoLayerConcurrentByteSet.clear 4096
            (LayeredConcurrentByteSet.mk [] []));
   r ← TwoLayerConcurrentByteSet.ForEachNonZeroByte 4096 record_call 0 4096 b [];
   Some (nonzero_calls (LayeredConcurrentByteSet.upper_layer_ b) 0 64, r.2))
  = Some ([(32, 1%Z)], [(2050, 42%Z)]).
Proof. by vm_compute. Qed.

(** ** feature.h: domains and encoders *)

Section Features.
Local Open Scope Z_scope.
Import feature_domains.

Local Ltac zlia := Z.div_mod_to_equations; lia.

Lemma kDomainSize_eq : kDomainSize = 2 ^ 27.
Proof. reflexivity. Qed.

Lemma declared_ids : Forall (λ d, 0 ≤ domain_id d ≤ 28) declared.
Proof. repeat constructor; simpl; lia. Qed.

Lemma declared_dense : domain_id <$> declared = seqZ 0 29.
Proof. reflexivity. Qed.

Lemma begin_small (d : Domain) :
  0 ≤ domain_id d ≤ 28 → begin d = 2 ^ 27 * domain_id d.
Proof.
  intros Hd. unfold begin, uint64_t, wrap. rewrite kDomainSize_eq.
  apply Z.mod_small. lia.
Qed.

Lemma ConvertToMe_small (d : Domain) (number : Z) :
  0 ≤ domain_id d ≤ 28 →
  ConvertToMe d number = 2 ^ 27 * domain_id d + number `mod` 2 ^ 27.
Proof.
  intros Hd. unfold ConvertToMe, uint64_t, wrap.
  rewrite begin_small, kDomainSize_eq by done.
  apply Z.mod_small. zlia.
Qed.

(** C6.  For a domain with [domain_id ≤ 28] and any number [n], the feature
    [d.ConvertToMe(n)] lies in domain [d.domain_id()] at index [n mod 2^27];
    and for [idx < 2^27] the PC feature of [idx] converts back to [idx]
    (without a trap). *)
Theorem domain_roundtrip (d : Domain) (n idx : Z) :
  0 ≤ domain_id d ≤ 28 → 0 ≤ idx < 2 ^ 27 →
  FeatureToDomainId (ConvertToMe d n) = domain_id d
  ∧ FeatureToIndexInDomain (ConvertToMe d n) = n `mod` 2 ^ 27
  ∧ ConvertPCFeatureToPcIndex (ConvertToMe kPCs idx) = Some idx.
Proof.
  intros Hd Hidx. split_and!.
  - unfold FeatureToDomainId. rewrite ConvertToMe_small, kDomainSize_eq by done.
    zlia.
  - unfold FeatureToIndexInDomain.
    rewrite ConvertToMe_small, kDomainSize_eq by done. zlia.
  - unfold ConvertPCFeatureToPcIndex, Contains, end_.
    rewrite ConvertToMe_small, begin_small by (simpl; lia).
    rewrite kDomainSize_eq. unfold uint64_t, size_t, wrap. simpl domain_id.
    rewrite !bool_decide_eq_true_2 by zlia. simpl. f_equal. zlia.
Qed.

(** C6 at the Hamming domain, a number beyond the domain size, and PC 5. *)
Lemma domain_roundtrip_witness :
  FeatureToDomainId (ConvertToMe kCMPHamming 123456789012) = 7
  ∧ FeatureToIndexInDomain (ConvertToMe kCMPHamming 123456789012)
    = 123456789012 `mod` 2 ^ 27
  ∧ ConvertPCFeatureToPcIndex (ConvertToMe kPCs 5) = Some 5.
Proof. apply (domain_roundtrip kCMPHamming 123456789012 5); simpl; lia. Defined.

(** [__builtin_clz] and [__builtin_clzll] against the binary logarithm. *)
Lemma clz_from_log2 (n : nat) (x : Z) :
  0 < x < 2 ^ Z.of_nat n → clz_from n x = Z.of_nat n - 1 - Z.log2 x.
Proof.
  revert x. induction n as [|n IH]; intros x Hx.
  - simpl in Hx. lia.
  - rewrite Nat2Z.inj_succ, Z.pow_succ_r in Hx by lia.
    assert (0 < 2 ^ Z.of_nat n) as Hpow by (apply Z.pow_pos_nonneg; lia).
    simpl clz_from. destruct (Z.testbit x (Z.of_nat n)) eqn:Hbit.
    + apply Z.testbit_true in Hbit; [|lia].
      assert (2 ^ Z.of_nat n ≤ x).
      { destruct (Z_lt_le_dec x (2 ^ Z.of_nat n)) as [Hlt|]; [|done].
        rewrite Z.div_small in Hbit by lia. done. }
      rewrite (Z.log2_unique x (Z.of_nat n)); [lia|lia|].
      rewrite Z.pow_succ_r by lia. lia.
    + apply Z.testbit_false in Hbit; [|lia].
      assert (x < 2 ^ Z.of_nat n).
      { destruct (Z_lt_le_dec x (2 ^ Z.of_nat n)) as [|Hle]; [done|].
        assert (x `div` 2 ^ Z.of_nat n = 1) as Hone.
        { symmetry. apply Z.div_unique with (x - 2 ^ Z.of_nat n); lia. }
        rewrite Hone in Hbit. done. }
      rewrite IH by lia. lia.
Qed.

Lemma counter_log2 (v : Z) :
  1 ≤ v ≤ 255 → uint32_t (4 * 8 - 1 - builtin_clz v) = Z.log2 v.
Proof.
  intros Hv. unfold builtin_clz. rewrite clz_from_log2 by (simpl; lia).
  assert (0 ≤ Z.log2 v < 8).
  { split; [apply Z.log2_nonneg|]. apply Z.log2_lt_pow2; lia. }
  unfold uint32_t, wrap. rewrite Z.mod_small; lia.
Qed.

Lemma Convert8bitCounterToNumber_spec (p v : Z) :
  1 ≤ v ≤ 255 →
  Convert8bitCounterToNumber p v = Some ((p * 8 + Z.log2 v) `mod` 2 ^ 64).
Proof.
  intros Hv. unfold Convert8bitCounterToNumber.
  rewrite decide_False by lia. by rewrite counter_log2.
Qed.

(** C7, as stated, fails: [pc_index * 8] is computed in [size_t], so for
    [p = 2^61] and [v = 1] the function returns [0], not [p·8 + 0 = 2^64]. *)
Lemma counter_number_wraps :
  Convert8bitCounterToNumber (2 ^ 61) 1 = Some 0
  ∧ Convert8bitCounterToNumber (2 ^ 61) 1 ≠ Some (2 ^ 61 * 8 + Z.log2 1).
Proof. split; [reflexivity|]. vm_compute. discriminate. Qed.

(** C7, amended.  For a [size_t] [p] and [v] in [[1, 255]] the function
    returns [p·8 + ⌊log₂ v⌋] reduced modulo [2^64], which is [p·8 + ⌊log₂ v⌋]
    itself whenever [p < 2^61]; for each [p] the outputs over [v] in
    [[1, 255]] are exactly 8 distinct values; and, over the bytes [v], it
    traps exactly when [v = 0]. *)
Theorem counter_number_spec (p : Z) :
  0 ≤ p < 2 ^ 64 →
  (∀ v, 1 ≤ v ≤ 255 →
     Convert8bitCounterToNumber p v = Some ((p * 8 + Z.log2 v) `mod` 2 ^ 64)
     ∧ (p < 2 ^ 61 →
        Convert8bitCounterToNumber p v = Some (p * 8 + Z.log2 v)))
  ∧ (∃ outs : list Z,
       NoDup outs ∧ length outs = 8%nat
       ∧ ∀ r, r ∈ outs ↔
              ∃ v, 1 ≤ v ≤ 255 ∧ Convert8bitCounterToNumber p v = Some r)
  ∧ (∀ v, 0 ≤ v ≤ 255 → Convert8bitCounterToNumber p v = None ↔ v = 0).
Proof.
  intros Hp. split_and!.
  - intros v Hv. rewrite Convert8bitCounterToNumber_spec by done.
    split; [done|]. intros Hsmall. f_equal.
    assert (0 ≤ Z.log2 v < 8).
    { split; [apply Z.log2_nonneg|]. apply Z.log2_lt_pow2; lia. }
    apply Z.mod_small. lia.
  - set (base := (p * 8) `mod` 2 ^ 64).
    assert (∀ b, 0 ≤ b < 8 → (p * 8 + b) `mod` 2 ^ 64 = base + b) as Hb.
    { intros b Hb. unfold base. zlia. }
    exists ((λ b, base + b) <$> seqZ 0 8). split_and!.
    + apply NoDup_fmap_2; [intros ???; lia|apply NoDup_seqZ].
    + by rewrite length_fmap, length_seqZ.
    + intros r. rewrite list_elem_of_fmap. split.
      * intros (b & -> & Hin). apply elem_of_seqZ in Hin.
        exists (2 ^ b). assert (Z.log2 (2 ^ b) = b) as Hlog
          by (apply Z.log2_pow2; lia).
        assert (1 ≤ 2 ^ b ≤ 255).
        { assert (b = 0 ∨ b = 1 ∨ b = 2 ∨ b = 3 ∨ b = 4 ∨ b = 5 ∨ b = 6 ∨ b = 7)
            as Hcases by lia.
          destruct_or! Hcases; subst b; simpl; lia. }
        split; [done|].
        rewrite Convert8bitCounterToNumber_spec, Hlog by done.
        f_equal. apply Hb. lia.
      * intros (v & Hv & Hr).
        rewrite Convert8bitCounterToNumber_spec in Hr by done.
        injection Hr as <-.
        assert (0 ≤ Z.log2 v < 8).
        { split; [apply Z.log2_nonneg|]. apply Z.log2_lt_pow2; lia. }
        exists (Z.log2 v). split; [by apply Hb|]. apply elem_of_seqZ. lia.
  - intros v Hv. unfold Convert8bitCounterToNumber.
    case_decide; [done|]. split; [done|lia].
Qed.

(** C7 at [pc_index = 7], the scenario "counter encoding". *)
Lemma counter_number_spec_witness :
  (∀ v, 1 ≤ v ≤ 255 →
     Convert8bitCounterToNumber 7 v = Some ((7 * 8 + Z.log2 v) `mod` 2 ^ 64)
     ∧ (7 < 2 ^ 61 →
        Convert8bitCounterToNumber 7 v = Some (7 * 8 + Z.log2 v)))
  ∧ (∃ outs : list Z,
       NoDup outs ∧ length outs = 8%nat
       ∧ ∀ r, r ∈ outs ↔
              ∃ v, 1 ≤ v ≤ 255 ∧ Convert8bitCounterToNumber 7 v = Some r)
  ∧ (∀ v, 0 ≤ v ≤ 255 → Convert8bitCounterToNumber 7 v = None ↔ v = 0).
Proof. apply (counter_number_spec 7). lia. Defined.

Example counter_encoding :
  Convert8bitCounterToNumber 7 <$> [1; 2; 3; 128; 255]
  = Some <$> [56; 57; 57; 63; 63].
Proof. reflexivity. Qed.

Lemma popcount_from_bounds (n : nat) (x : Z) :
  0 ≤ popcount_from n x ≤ Z.of_nat n.
Proof.
  induction n as [|n IH]; [simpl; lia|].
  rewrite Nat2Z.inj_succ. simpl popcount_from.
  destruct (Z.testbit x (Z.of_nat n)); lia.
Qed.

(** C10.  [ABToCmpHamming] has no trap and no check of [a ≠ b]: it yields a
    [uintptr_t] for every pair, and on equal operands the [int] result
    [popcount(0) - 1 = -1] converts to [2^64 - 1], outside [[0, 64)]. *)
Theorem hamming_of_equal_operands :
  (∀ a b, 0 ≤ ABToCmpHamming a b < 2 ^ 64)
  ∧ ∀ a, ABToCmpHamming a a = 2 ^ 64 - 1
         ∧ ¬ (0 ≤ ABToCmpHamming a a < 64).
Proof.
  split.
  - intros a b. unfold ABToCmpHamming, uintptr_t, wrap.
    apply Z.mod_pos_bound. lia.
  - intros a. unfold ABToCmpHamming. rewrite Z.lxor_nilpotent.
    split; [reflexivity|]. vm_compute. intros [_ H]. discriminate H.
Qed.

End Features.

(** ** table_of_recent_compares.h *)

Section TORC.
Local Open Scope Z_scope.
Import TableOfRecentCompares.
Variable sizeofT : Z.

Lemma static_cast_id (x : Z) :
  0 ≤ x < 2 ^ bits sizeofT → static_cast sizeofT x = x.
Proof. intros. unfold static_cast, wrap. by apply Z.mod_small. Qed.

Lemma fold_insert_entry (f : nat → option Z) (idxs : list nat)
    (acc : gset Z) (b : Z) :
  b ∈ foldl (λ set i, insert_entry set (f i)) acc idxs
  ↔ b ∈ acc ∨ ∃ i, i ∈ idxs ∧ f i = Some b.
Proof.
  revert acc. induction idxs as [|i idxs IH]; intros acc; simpl.
  - split; [auto|]. intros [?|(i & Hi & _)]; [done|]. by apply elem_of_nil in Hi.
  - rewrite IH. unfold insert_entry. split.
    + intros [Hacc|(j & Hj & Hf)].
      * destruct (f i) as [v|] eqn:Hfi; [|by left].
        apply elem_of_union in Hacc as [->%elem_of_singleton|?]; [|by left].
        right. exists i. split; [left|done].
      * right. exists j. split; [by right|done].
    + intros [Hacc|(j & Hj & Hf)].
      * left. destruct (f i); [|done]. apply elem_of_union. by right.
      * apply elem_of_cons in Hj as [->|Hj].
        -- left. rewrite Hf. apply elem_of_union. left. by apply elem_of_singleton.
        -- right. eauto.
Qed.

Lemma entry_match (tb : t) (val : Z) (i : nat) (b : Z) :
  entry_ok sizeofT (table_ tb !!! i) →
  GetMatchingIntegerDictionaryEntry sizeofT tb val i = Some b
  ↔ table_ tb !!! i = mkEntry val b ∨ table_ tb !!! i = mkEntry b val.
Proof.
  intros [Hl Hr]. unfold GetMatchingIntegerDictionaryEntry.
  destruct (table_ tb !!! i) as [l r]. simpl in *.
  rewrite !static_cast_id by done.
  repeat case_decide; split; intros Hm; simplify_eq; auto;
    destruct Hm; simplify_eq; auto.
Qed.

Lemma entry_match_in (tb : t) (val : Z) (i : nat) (min max b : Z) :
  entry_ok sizeofT (table_ tb !!! i) →
  GetMatchingIntegerDictionaryEntry_in sizeofT tb val i min max = Some b
  ↔ (table_ tb !!! i = mkEntry val b ∨ table_ tb !!! i = mkEntry b val)
    ∧ min ≤ b ≤ max.
Proof.
  intros Hok. unfold GetMatchingIntegerDictionaryEntry_in.
  destruct (GetMatchingIntegerDictionaryEntry sizeofT tb val i) as [r|] eqn:Hr.
  - case_decide as Hrange.
    + split; [done|]. intros [Hb ?]. apply entry_match in Hb; [|done].
      assert (r = b) by congruence. lia.
    + split.
      * intros [= <-]. split; [by apply entry_match in Hr|lia].
      * intros [Hb _]. apply entry_match in Hb; [|done]. congruence.
  - split; [done|]. intros [Hb _]. apply entry_match in Hb; [|done]. congruence.
Qed.

Lemma matching_entries_elem_of (tb : t) (val min max b : Z) :
  table_ok sizeofT tb →
  b ∈ GetMatchingIntegerDictionaryEntries sizeofT tb val min max
  ↔ (∃ e, e ∈ table_ tb ∧ (e = mkEntry val b ∨ e = mkEntry b val))
    ∧ min ≤ b ≤ max.
Proof.
  intros [Hlen Hall]. unfold GetMatchingIntegerDictionaryEntries.
  assert (∀ i, (i < kTableSize sizeofT)%nat → entry_ok sizeofT (table_ tb !!! i))
    as Hslot.
  { intros i Hi. eapply Forall_lookup_1; [done|].
    apply list_lookup_lookup_total_lt. lia. }
  rewrite elem_of_elements. case_decide as Hfull.
  - rewrite fold_insert_entry. split.
    + intros [Hb|(i & Hi & Hm)]; [by apply not_elem_of_empty in Hb|].
      apply elem_of_seq in Hi. pose proof (Hslot i ltac:(lia)) as [Hl Hr].
      apply entry_match in Hm; [|by apply Hslot; lia].
      split.
      * exists (table_ tb !!! i). split; [|done].
        apply list_elem_of_lookup_total_2. lia.
      * destruct Hfull as [-> ->]. unfold numeric_limits_min, numeric_limits_max.
        destruct Hm as [Hm|Hm]; rewrite Hm in Hl, Hr; simpl in *; lia.
    + intros [(e & He & Hm) _]. right.
      apply list_elem_of_lookup_total_1 in He as (i & Hi & <-).
      exists i. split; [apply elem_of_seq; lia|].
      apply entry_match; [apply Hslot; lia|done].
  - rewrite fold_insert_entry. split.
    + intros [Hb|(i & Hi & Hm)]; [by apply not_elem_of_empty in Hb|].
      apply elem_of_seq in Hi.
      apply entry_match_in in Hm as [Hm Hrange]; [|by apply Hslot; lia].
      split; [|done]. exists (table_ tb !!! i). split; [|done].
      apply list_elem_of_lookup_total_2. lia.
    + intros [(e & He & Hm) Hrange]. right.
      apply list_elem_of_lookup_total_1 in He as (i & Hi & <-).
      exists i. split; [apply elem_of_seq; lia|].
      apply entry_match_in; [apply Hslot; lia|done].
Qed.

End TORC.

(** C8.  On a table of [kTableSize] slots holding values of [T], the vector
    returned by [GetMatchingIntegerDictionaryEntries(val, min, max)] has no
    duplicates; [b] is in it exactly when some slot holds [(val, b)] or
    [(b, val)] and [min ≤ b ≤ max]; and a table with the same slots in another
    order yields the same elements. *)
Theorem matching_entries_spec (sizeofT : Z) (tb : TableOfRecentCompares.t)
    (val min max : Z) :
  table_ok sizeofT tb →
  NoDup (TableOfRecentCompares.GetMatchingIntegerDictionaryEntries
           sizeofT tb val min max)
  ∧ (∀ b,
       b ∈ TableOfRecentCompares.GetMatchingIntegerDictionaryEntries
             sizeofT tb val min max
       ↔ (∃ e, e ∈ TableOfRecentCompares.table_ tb
               ∧ (e = TableOfRecentCompares.mkEntry val b
                  ∨ e = TableOfRecentCompares.mkEntry b val))
         ∧ (min ≤ b ≤ max)%Z)
  ∧ (∀ tb',
       TableOfRecentCompares.table_ tb' ≡ₚ TableOfRecentCompares.table_ tb →
       TableOfRecentCompares.GetMatchingIntegerDictionaryEntries
         sizeofT tb' val min max
       ≡ₚ TableOfRecentCompares.GetMatchingIntegerDictionaryEntries
            sizeofT tb val min max).
Proof.
  intros Hok.
  assert (∀ tb0 : TableOfRecentCompares.t,
            NoDup (TableOfRecentCompares.GetMatchingIntegerDictionaryEntries
                     sizeofT tb0 val min max)) as Hnodup.
  { intros tb0.
    unfold TableOfRecentCompares.GetMatchingIntegerDictionaryEntries.
    apply NoDup_elements. }
  split_and!; [apply Hnodup|intros b; by apply matching_entries_elem_of|].
  intros tb' Hperm.
  assert (table_ok sizeofT tb') as Hok'.
  { destruct Hok as [Hlen Hall]. split; [by rewrite Hperm|by rewrite Hperm]. }
  apply NoDup_Permutation; [apply Hnodup..|]. intros b.
  rewrite !matching_entries_elem_of by done.
  by setoid_rewrite Hperm.
Qed.

Lemma empty_table_ok (sizeofT : Z) :
  (0 ≤ sizeofT)%Z → table_ok sizeofT (TableOfRecentCompares.empty sizeofT).
Proof.
  intros Hsz. split; [apply length_replicate|].
  apply Forall_replicate. unfold entry_ok, TableOfRecentCompares.bits, CHAR_BIT.
  simpl. assert (0 < 2 ^ (sizeofT * 8))%Z by (apply Z.pow_pos_nonneg; lia). lia.
Qed.

Lemma Insert_table_ok (sizeofT : Z) (tb : TableOfRecentCompares.t) (l r : Z) :
  table_ok sizeofT tb →
  entry_ok sizeofT (TableOfRecentCompares.mkEntry l r) →
  table_ok sizeofT (TableOfRecentCompares.Insert sizeofT l r tb).
Proof.
  intros [Hlen Hall] He. split; simpl.
  - by rewrite length_insert.
  - by apply Forall_insert.
Qed.

(** C8 on the 32-bit table after [Insert(0xDEADBEEF, 0xCAFEBABE)] and
    [Insert(42, 99)], queried with [val = 42] and the range [[0, 100]]. *)
Lemma matching_entries_spec_witness :
  NoDup (TableOfRecentCompares.GetMatchingIntegerDictionaryEntries 4
           (TableOfRecentCompares.Insert 4 42 99
              (TableOfRecentCompares.Insert 4 3735928559 3405691582
                 (TableOfRecentCompares.empty 4)))
           42 0 100)
  ∧ (∀ b,
       b ∈ TableOfRecentCompares.GetMatchingIntegerDictionaryEntries 4
             (TableOfRecentCompares.Insert 4 42 99
                (TableOfRecentCompares.Insert 4 3735928559 3405691582
                   (TableOfRecentCompares.empty 4)))
             42 0 100
       ↔ (∃ e, e ∈ TableOfRecentCompares.table_
                     (TableOfRecentCompares.Insert 4 42 99
                        (TableOfRecentCompares.Insert 4 3735928559 3405691582
                           (TableOfRecentCompares.empty 4)))
               ∧ (e = TableOfRecentCompares.mkEntry 42 b
                  ∨ e = TableOfRecentCompares.mkEntry b 42))
         ∧ (0 ≤ b ≤ 100)%Z)
  ∧ (∀ tb',
       TableOfRecentCompares.table_ tb'
       ≡ₚ TableOfRecentCompares.table_
            (TableOfRecentCompares.Insert 4 42 99
               (TableOfRecentCompares.Insert 4 3735928559 3405691582
                  (TableOfRecentCompares.empty 4))) →
       TableOfRecentCompares.GetMatchingIntegerDictionaryEntries 4 tb' 42 0 100
       ≡ₚ TableOfRecentCompares.GetMatchingIntegerDictionaryEntries 4
            (TableOfRecentCompares.Insert 4 42 99
               (TableOfRecentCompares.Insert 4 3735928559 3405691582
                  (TableOfRecentCompares.empty 4)))
            42 0 100).
Proof.
  apply (matching_entries_spec 4).
  repeat apply Insert_table_ok; [apply empty_table_ok; lia|..];
    unfold entry_ok, TableOfRecentCompares.bits, CHAR_BIT; simpl; lia.
Defined.

(** Scenario "integer TORC match". *)
Example torc_match_scenario :
  let tb := TableOfRecentCompares.Insert 4 42 99
              (TableOfRecentCompares.Insert 4 3735928559 3405691582
                 (TableOfRecentCompares.empty 4)) in
  TableOfRecentCompares.GetMatchingIntegerDictionaryEntries 4 tb
    3735928559 0 4294967295 = [3405691582%Z]
  ∧ TableOfRecentCompares.GetMatchingIntegerDictionaryEntries 4 tb 42 0 50 = []
  ∧ TableOfRecentCompares.GetMatchingIntegerDictionaryEntries 4 tb 42 0 100
    = [99%Z].
Proof. by vm_compute. Qed.

(** [GetRandomSide] reads [entry.lhs] on both branches: its result depends
    neither on the coin nor on the slot's [rhs]. *)
Lemma GetRandomSide_spec (sizeofT : Z) (coin : bool)
    (tb : TableOfRecentCompares.t) (idx : nat) (min max : Z) :
  TableOfRecentCompares.GetRandomSide sizeofT coin tb idx min max
  = let val := TableOfRecentCompares.static_cast sizeofT
                 (TableOfRecentCompares.lhs
                    (TableOfRecentCompares.table_ tb !!! idx)) in
    if decide (min ≤ val ∧ val ≤ max)%Z then Some val else None.
Proof. unfold TableOfRecentCompares.GetRandomSide. by destruct coin. Qed.

(** C3 fails on the code.  On the 32-bit table after [Insert(1, 2)] (which
    lands in slot 89) and with [min = max = 2], the slot's [rhs = 2] lies in
    the range, yet both coin outcomes return [nullopt]; with [min = max = 1]
    both outcomes return the [lhs]. *)
Lemma GetRandomSide_never_returns_rhs :
  TableOfRecentCompares.table_
    (TableOfRecentCompares.Insert 4 1 2 (TableOfRecentCompares.empty 4)) !!! 89
  = TableOfRecentCompares.mkEntry 1 2
  ∧ TableOfRecentCompares.GetRandomSide 4 true
      (TableOfRecentCompares.Insert 4 1 2 (TableOfRecentCompares.empty 4))
      89 2 2 = None
  ∧ TableOfRecentCompares.GetRandomSide 4 false
      (TableOfRecentCompares.Insert 4 1 2 (TableOfRecentCompares.empty 4))
      89 2 2 = None
  ∧ TableOfRecentCompares.GetRandomSide 4 true
      (TableOfRecentCompares.Insert 4 1 2 (TableOfRecentCompares.empty 4))
      89 1 1 = Some 1%Z
  ∧ TableOfRecentCompares.GetRandomSide 4 false
      (TableOfRecentCompares.Insert 4 1 2 (TableOfRecentCompares.empty 4))
      89 1 1 = Some 1%Z.
Proof. by vm_compute. Qed.

(** * Further properties of the code *)

(** ** [ConcurrentByteSet]: drains of a sub-range, writers *)

(** X1.  A drain of an aligned range [from ≤ to ≤ N] of a well-formed array
    returns; it calls [action] once for every non-zero byte of the range, by
    ascending index; afterwards the range is zero and every byte outside it is
    as before. *)
Theorem drain_range_frame (N from to : nat) (l : list Z) :
  bytes_ok N l →
  from `mod` 64 = 0 → to `mod` 64 = 0 → from ≤ to → to ≤ N →
  ∃ l',
    ConcurrentByteSet.ForEachNonZeroByte N record_call from to l []
    = Some (l', nonzero_calls l from (to - from))
    ∧ bytes_ok N l'
    ∧ ∀ i, i < N →
           l' !!! i = if decide (from ≤ i < to) then 0%Z else l !!! i.
Proof.
  intros Hok Hfrom Hto Hle Hsize. exists (memset from 0 (to - from) l).
  rewrite ForEachNonZeroByte_spec by done.
  rewrite run_calls_record. split_and!; [done|by apply memset_ok|].
  intros i Hi. destruct Hok as [Hlen _].
  rewrite memset_lookup_total by lia.
  repeat case_decide; try done; lia.
Qed.

Lemma drain_range_frame_witness :
  ∃ l',
    ConcurrentByteSet.ForEachNonZeroByte 128 record_call 64 128
      (<[70 := 3%Z]> (<[5 := 9%Z]> (replicate 128 0%Z))) []
    = Some (l', nonzero_calls (<[70 := 3%Z]> (<[5 := 9%Z]> (replicate 128 0%Z)))
                  64 (128 - 64))
    ∧ bytes_ok 128 l'
    ∧ ∀ i, i < 128 →
           l' !!! i = if decide (64 ≤ i < 128) then 0%Z
                      else <[70 := 3%Z]> (<[5 := 9%Z]> (replicate 128 0%Z)) !!! i.
Proof.
  apply (drain_range_frame 128 64 128); [|reflexivity|reflexivity|lia|lia].
  do 2 (apply insert_ok; [|unfold is_byte; lia]).
  apply (clear_ok 128 []).
Defined.

(** X2.  A drain right after [clear()] invokes [action] zero times and
    leaves the set cleared, for any aligned bounds within the array,
    [from ≤ N] and [to ≤ N] (also [from = to] and [from > to]). *)
Theorem drain_after_clear (N from to : nat) (b0 : list Z) :
  from `mod` 64 = 0 → to `mod` 64 = 0 → from ≤ N → to ≤ N →
  ConcurrentByteSet.ForEachNonZeroByte N record_call from to
    (ConcurrentByteSet.clear N b0) []
  = Some (ConcurrentByteSet.clear N b0, []).
Proof.
  intros Hfrom Hto _ Hsize.
  destruct (decide (to ≤ from)) as [Hle|Hlt]; [by apply drain_empty_range|].
  pose proof (clear_ok N b0) as Hok.
  rewrite ForEachNonZeroByte_spec by (done || lia).
  assert (∀ i, from ≤ i < from + (to - from) →
               ConcurrentByteSet.clear N b0 !!! i = 0%Z) as Hzero.
  { intros i Hi. apply clear_lookup. lia. }
  rewrite nonzero_calls_zero by done.
  rewrite memset_id; [done|]. intros i Hi _. by apply Hzero.
Qed.

Lemma drain_after_clear_witness :
  ConcurrentByteSet.ForEachNonZeroByte 128 record_call 128 64
    (ConcurrentByteSet.clear 128 [7%Z]) []
  = Some (ConcurrentByteSet.clear 128 [7%Z], []).
Proof.
  apply (drain_after_clear 128 128 64); [reflexivity|reflexivity|lia|lia].
Defined.

(** X3.  A sequence of [Set] and [SaturatedIncrement] calls traps exactly
    when one of its calls has an index [≥ N]. *)
Theorem writers_trap_iff (N : nat) (ops : list write_op) (l : list Z) :
  run (apply_op N) ops l = None ↔ Exists (λ op, N ≤ op_index op) ops.
Proof.
  revert l. induction ops as [|op ops IH]; intros l; simpl.
  - split; [done|]. intros H. by apply Exists_nil in H.
  - rewrite Exists_cons.
    destruct (decide (N ≤ op_index op)) as [Hout|Hin].
    + split; [auto|]. intros _.
      destruct op; simpl in *;
        unfold ConcurrentByteSet.Set_, ConcurrentByteSet.SaturatedIncrement;
        by rewrite decide_True.
    + assert (is_Some (apply_op N op l)) as [l' ->].
      { destruct op; simpl in *;
          unfold ConcurrentByteSet.Set_, ConcurrentByteSet.SaturatedIncrement;
          rewrite decide_False by done; [by eexists|].
        case_decide; by eexists. }
      simpl. rewrite IH. split; [by right|by intros [?|?]].
Qed.

(** X4.  From a cleared set, in-range writers keep the array well formed: its
    length stays [N] and every byte stays in [[0, 255]]; after
    [SaturatedIncrement(i)] byte [i] is non-zero, not below its old value, and
    no other byte has changed. *)
Theorem writers_keep_bytes (N i : nat) (ops : list write_op) (b0 : list Z) :
  Forall (op_ok N) ops → i < N →
  ∃ l l',
    run (apply_op N) ops (ConcurrentByteSet.clear N b0) = Some l
    ∧ bytes_ok N l
    ∧ ConcurrentByteSet.SaturatedIncrement N i l = Some l'
    ∧ bytes_ok N l'
    ∧ (1 ≤ l' !!! i)%Z ∧ (l !!! i ≤ l' !!! i)%Z
    ∧ ∀ j, j ≠ i → l' !!! j = l !!! j.
Proof.
  intros Hops Hi.
  assert (∀ l0, bytes_ok N l0 →
            ∃ l, run (apply_op N) ops l0 = Some l ∧ bytes_ok N l) as Hrun.
  { induction Hops as [|op ops Hop _ IH]; intros l0 Hok; simpl; [by eauto|].
    destruct (apply_op_spec N op l0) as (l1 & -> & Hok1); [done..|].
    simpl. by apply IH. }
  destruct (Hrun _ (clear_ok N b0)) as (l & Hl & Hok).
  pose proof (bytes_ok_lookup _ _ _ Hok Hi) as Hb. unfold is_byte in Hb.
  exists l, (<[i := Z.min (l !!! i + 1) 255]> l).
  rewrite SaturatedIncrement_spec by done. destruct Hok as [Hlen Hall].
  split_and!; [done|done|done| | | |].
  - apply insert_ok; [done|]. unfold is_byte. lia.
  - rewrite list_lookup_total_insert_eq by lia. lia.
  - rewrite list_lookup_total_insert_eq by lia. lia.
  - intros j Hj. by rewrite list_lookup_total_insert_ne.
Qed.

Lemma writers_keep_bytes_witness :
  ∃ l l',
    run (apply_op 64) [OpSet 3 200; OpInc 3; OpInc 9]
        (ConcurrentByteSet.clear 64 []) = Some l
    ∧ bytes_ok 64 l
    ∧ ConcurrentByteSet.SaturatedIncrement 64 3 l = Some l'
    ∧ bytes_ok 64 l'
    ∧ (1 ≤ l' !!! 3%nat)%Z ∧ (l !!! 3%nat ≤ l' !!! 3%nat)%Z
    ∧ ∀ j, j ≠ 3 → l' !!! j = l !!! j.
Proof.
  apply (writers_keep_bytes 64 3); [|lia].
  repeat constructor; simpl; lia.
Defined.

(** ** [TwoLayerConcurrentByteSet]: writers, drains of a sub-range *)

Lemma aligned_4096 (x : nat) :
  x `mod` 4096 = 0 → x = 64 * (x / 64) ∧ (x / 64) `mod` 64 = 0.
Proof.
  intros Hx. pose proof (Nat.div_mod_eq x 4096) as H1.
  assert (x / 64 = x / 4096 * 64) as ->.
  { symmetry. apply Nat.div_unique with 0; lia. }
  split; [lia|apply Nat.Div0.mod_mul].
Qed.

Lemma aligned_64_of_4096 (x : nat) : x `mod` 4096 = 0 → x `mod` 64 = 0.
Proof.
  intros Hx. destruct (aligned_4096 x Hx) as [-> _].
  rewrite Nat.mul_comm. apply Nat.Div0.mod_mul.
Qed.

Section TwoLayerRange.
Variable N : nat.
Hypothesis N_pos : 0 < N.
Hypothesis N_aligned : N `mod` 4096 = 0.

Lemma chunk_index_bound i : i < N → i / 64 < N / 64.
Proof.
  intros Hi. pose proof (upper_size N N_pos N_aligned).
  apply Nat.Div0.div_lt_upper_bound. lia.
Qed.

Lemma two_layer_drain_range_spec b (l : list Z) from to :
  two_layer_holds N b l →
  from `mod` 4096 = 0 → to `mod` 4096 = 0 → from ≤ to → to ≤ N →
  TwoLayerConcurrentByteSet.ForEachNonZeroByte N record_call from to b []
  = Some (LayeredConcurrentByteSet.mk
            (memset (from / 64) 0 (to / 64 - from / 64)
               (LayeredConcurrentByteSet.upper_layer_ b))
            (memset from 0 (to - from) l),
          nonzero_calls l from (to - from)).
Proof.
  intros (Hlow & Hok & Hup & Hflag) Hfrom Hto Hle Hsize.
  pose proof (upper_size N N_pos N_aligned) as HU.
  destruct (aligned_4096 from Hfrom) as [Hf64 Hfu].
  destruct (aligned_4096 to Hto) as [Ht64 Htu].
  unfold TwoLayerConcurrentByteSet.ForEachNonZeroByte,
    LayeredConcurrentByteSet.ForEachNonZeroByte.
  change (LayeredConcurrentByteSet.kSizeMultiple) with 4096.
  rewrite (layer_ratio N N_pos N_aligned), Hfrom, Hto.
  rewrite decide_False by lia. rewrite !decide_False by auto.
  cbn zeta.
  rewrite ForEachNonZeroByte_spec; [|done|done|done|lia|lia].
  rewrite Hlow.
  rewrite (drain_chunks_spec N N_pos N_aligned);
    [|done|lia|intros; apply Hflag; [lia|done]].
  rewrite !bind_Some_l. cbn [fst snd app].
  replace (64 * (from / 64)) with from by lia.
  by replace (64 * (to / 64 - from / 64)) with (to - from) by lia.
Qed.

Lemma holds_after_drain b (l : list Z) from to :
  two_layer_holds N b l →
  from `mod` 4096 = 0 → to `mod` 4096 = 0 → from ≤ to → to ≤ N →
  two_layer_holds N
    (LayeredConcurrentByteSet.mk
       (memset (from / 64) 0 (to / 64 - from / 64)
          (LayeredConcurrentByteSet.upper_layer_ b))
       (memset from 0 (to - from) l))
    (memset from 0 (to - from) l).
Proof.
  intros (Hlow & Hok & Hup & Hflag) Hfrom Hto Hle Hsize.
  pose proof (upper_size N N_pos N_aligned) as HU.
  destruct (aligned_4096 from Hfrom) as [Hf64 _].
  destruct (aligned_4096 to Hto) as [Ht64 _].
  split_and!;
    cbn [LayeredConcurrentByteSet.upper_layer_
         LayeredConcurrentByteSet.lower_layer_];
    [done|by apply memset_ok|by apply memset_ok|].
  intros i Hi. pose proof (chunk_index_bound i Hi) as Hchunk.
  destruct Hok as [Hlen _], Hup as [Hulen _].
  rewrite !memset_lookup_total by lia.
  case_decide as Hin; [done|]. intros Hnz.
  rewrite decide_False; [by apply Hflag|].
  intros [Hlo Hhi]. apply Hin.
  pose proof (Nat.div_mod_eq i 64). pose proof (Nat.mod_upper_bound i 64).
  lia.
Qed.

(** X5.  For [N] a positive multiple of 4096, [Set] and [SaturatedIncrement]
    of the two-layer set trap exactly when [idx ≥ N]: the write of the flag
    at [idx / 64] into the upper layer never traps for [idx < N]. *)
Theorem two_layer_writers_trap_iff (i : nat) (v : Z)
    (b : LayeredConcurrentByteSet.t) :
  (TwoLayerConcurrentByteSet.Set_ N i v b = None ↔ N ≤ i)
  ∧ (TwoLayerConcurrentByteSet.SaturatedIncrement N i b = None ↔ N ≤ i).
Proof.
  unfold TwoLayerConcurrentByteSet.Set_, LayeredConcurrentByteSet.Set_,
    TwoLayerConcurrentByteSet.SaturatedIncrement,
    LayeredConcurrentByteSet.SaturatedIncrement.
  rewrite (layer_ratio N N_pos N_aligned).
  split; (case_decide as Hi; [done|]);
    pose proof (chunk_index_bound i ltac:(lia));
    rewrite !Set_spec by lia; rewrite !bind_Some_l.
  - split; [done|lia].
  - unfold ConcurrentByteSet.SaturatedIncrement.
    rewrite decide_False by lia.
    case_decide; rewrite bind_Some_l; (split; [done|lia]).
Qed.

End TwoLayerRange.

Lemma two_layer_writers_trap_iff_witness :
  (TwoLayerConcurrentByteSet.Set_ 4096 4095 7
     (TwoLayerConcurrentByteSet.clear 4096 (LayeredConcurrentByteSet.mk [] []))
   = None ↔ 4096 ≤ 4095)
  ∧ (TwoLayerConcurrentByteSet.SaturatedIncrement 4096 4095
       (TwoLayerConcurrentByteSet.clear 4096
          (LayeredConcurrentByteSet.mk [] []))
     = None ↔ 4096 ≤ 4095).
Proof. apply (two_layer_writers_trap_iff 4096); [lia|reflexivity]. Defined.

(** X6.  For [N] a positive multiple of 4096, after any in-range writes to a
    cleared two-layer set and to a cleared single-layer set, a drain of an
    aligned sub-range [from ≤ to ≤ N] (multiples of 4096) makes the same calls
    in the same order on both, and leaves the lower layer equal to the
    single-layer array; the flags of the drained chunks are reset, and a
    second drain of the range makes no call. *)
Theorem two_layer_drain_range (N from to : nat) (ops : list write_op)
    (b0 : LayeredConcurrentByteSet.t) (l0 : list Z) :
  0 < N → N `mod` 4096 = 0 → Forall (op_ok N) ops →
  from `mod` 4096 = 0 → to `mod` 4096 = 0 → from ≤ to → to ≤ N →
  ∃ b l b' l' calls,
    run (apply_op2 N) ops (TwoLayerConcurrentByteSet.clear N b0) = Some b
    ∧ run (apply_op N) ops (ConcurrentByteSet.clear N l0) = Some l
    ∧ TwoLayerConcurrentByteSet.ForEachNonZeroByte N record_call from to b []
      = Some (b', calls)
    ∧ ConcurrentByteSet.ForEachNonZeroByte N record_call from to l []
      = Some (l', calls)
    ∧ LayeredConcurrentByteSet.lower_layer_ b' = l'
    ∧ (∀ j, from / 64 ≤ j < to / 64 →
            LayeredConcurrentByteSet.upper_layer_ b' !!! j = 0%Z)
    ∧ ∃ b'',
        TwoLayerConcurrentByteSet.ForEachNonZeroByte N record_call from to b' []
        = Some (b'', []).
Proof.
  intros Hpos HN Hops Hfrom Hto Hle Hsize.
  destruct (run_ops_spec N Hpos HN ops (TwoLayerConcurrentByteSet.clear N b0)
              (ConcurrentByteSet.clear N l0))
    as (b & l & Hrun2 & Hrun1 & Hb); [apply holds_clear|done|].
  pose proof Hb as (_ & Hok & Hup & _).
  pose proof (holds_after_drain N Hpos HN b l from to Hb Hfrom Hto Hle Hsize)
    as Hb'.
  destruct (aligned_4096 from Hfrom) as [Hf64 _].
  destruct (aligned_4096 to Hto) as [Ht64 _].
  exists b, l,
    (LayeredConcurrentByteSet.mk
       (memset (from / 64) 0 (to / 64 - from / 64)
          (LayeredConcurrentByteSet.upper_layer_ b))
       (memset from 0 (to - from) l)),
    (memset from 0 (to - from) l), (nonzero_calls l from (to - from)).
  split_and!; [done|done| | |done| |].
  - by apply two_layer_drain_range_spec.
  - rewrite ForEachNonZeroByte_spec
      by (done || by apply aligned_64_of_4096).
    by rewrite run_calls_record.
  - intros j Hj. cbn [LayeredConcurrentByteSet.upper_layer_].
    destruct Hup as [Hulen _]. pose proof (upper_size N Hpos HN).
    rewrite memset_lookup_total by lia. rewrite decide_True; [done|lia].
  - eexists. rewrite (two_layer_drain_range_spec N Hpos HN _ _ from to Hb')
      by done.
    do 2 f_equal. apply nonzero_calls_zero. intros i Hi.
    destruct Hok as [Hlen _].
    rewrite memset_lookup_total by lia. rewrite decide_True; [done|lia].
Qed.

Lemma two_layer_drain_range_witness :
  ∃ b l b' l' calls,
    run (apply_op2 (4096 + 4096)) [OpSet 4100 42; OpInc 10; OpInc 4500]
        (TwoLayerConcurrentByteSet.clear (4096 + 4096)
           (LayeredConcurrentByteSet.mk [] [])) = Some b
    ∧ run (apply_op (4096 + 4096)) [OpSet 4100 42; OpInc 10; OpInc 4500]
        (ConcurrentByteSet.clear (4096 + 4096) []) = Some l
    ∧ TwoLayerConcurrentByteSet.ForEachNonZeroByte (4096 + 4096) record_call
        4096 (4096 + 4096) b [] = Some (b', calls)
    ∧ ConcurrentByteSet.ForEachNonZeroByte (4096 + 4096) record_call 4096 (4096 + 4096) l []
      = Some (l', calls)
    ∧ LayeredConcurrentByteSet.lower_layer_ b' = l'
    ∧ (∀ j, 4096 / 64 ≤ j < (4096 + 4096) / 64 →
            LayeredConcurrentByteSet.upper_layer_ b' !!! j = 0%Z)
    ∧ ∃ b'',
        TwoLayerConcurrentByteSet.ForEachNonZeroByte (4096 + 4096) record_call
          4096 (4096 + 4096) b' [] = Some (b'', []).
Proof.
  apply (two_layer_drain_range (4096 + 4096) 4096 (4096 + 4096));
    [lia|reflexivity| |reflexivity|reflexivity|lia|lia].
  repeat (apply Forall_cons; split;
    [split; [cbn [op_index]; lia|done || lia]|]).
  by apply Forall_nil.
Defined.

(** ** feature.h: domains, decoders, comparison features, [FeatureArray] *)

Section MoreFeatures.
Local Open Scope Z_scope.
Import feature_domains.

Local Ltac zlia := Z.div_mod_to_equations; lia.

(** X7.  The domains with ids up to 28 partition the features: [d] contains [f]
    exactly when [FeatureToDomainId(f)] is [d]'s id (so two domains with
    different ids share no feature), and [d.ConvertToMe(n)] always lies in
    [d]. *)
Theorem domains_partition (d : Domain) (f n : Z) :
  0 ≤ domain_id d ≤ 28 → 0 ≤ f →
  (Contains d f = true ↔ FeatureToDomainId f = domain_id d)
  ∧ Contains d (ConvertToMe d n) = true.
Proof.
  intros Hd Hf.
  assert (∀ g, Contains d g = true
               ↔ 2 ^ 27 * domain_id d ≤ g < 2 ^ 27 * domain_id d + 2 ^ 27)
    as Hcontains.
  { intros g. unfold Contains, end_. rewrite begin_small, kDomainSize_eq by done.
    unfold uint64_t, wrap. rewrite Z.mod_small by lia.
    rewrite andb_true_iff, !bool_decide_eq_true. done. }
  split.
  - rewrite Hcontains. unfold FeatureToDomainId. rewrite kDomainSize_eq. zlia.
  - apply Hcontains. rewrite ConvertToMe_small by done. zlia.
Qed.

Lemma domains_partition_witness :
  (Contains kCMPEq 700000000 = true ↔ FeatureToDomainId 700000000 = 5)
  ∧ Contains kCMPEq (ConvertToMe kCMPEq 123456789012) = true.
Proof. apply (domains_partition kCMPEq 700000000 123456789012); simpl; lia. Defined.

(** X8.  [ConvertPCFeatureToPcIndex] traps exactly on features outside the PC
    domain [[2^27, 2^28)]; when it returns [r], [r] is below the domain size
    and [kPCs.ConvertToMe(r)] is the feature again. *)
Theorem pc_feature_decode (f : Z) :
  0 ≤ f < 2 ^ 64 →
  (ConvertPCFeatureToPcIndex f = None ↔ f < 2 ^ 27 ∨ 2 ^ 28 ≤ f)
  ∧ ∀ r, ConvertPCFeatureToPcIndex f = Some r →
         0 ≤ r < 2 ^ 27 ∧ ConvertToMe kPCs r = f.
Proof.
  intros Hf. unfold ConvertPCFeatureToPcIndex, Contains, end_.
  rewrite !begin_small by (simpl; lia). rewrite kDomainSize_eq.
  unfold uint64_t, size_t, wrap. simpl domain_id.
  rewrite (Z.mod_small (2 ^ 27 * 1 + 2 ^ 27)) by lia.
  destruct (bool_decide (2 ^ 27 * 1 ≤ f)) eqn:Hlo;
    destruct (bool_decide (f < 2 ^ 27 * 1 + 2 ^ 27)) eqn:Hhi; simpl;
    try apply bool_decide_eq_true in Hlo; try apply bool_decide_eq_true in Hhi;
    try apply bool_decide_eq_false in Hlo;
    try apply bool_decide_eq_false in Hhi.
  - split; [split; [done|lia]|]. intros r [= <-].
    rewrite ConvertToMe_small by (simpl; lia). simpl domain_id. zlia.
  - split; [split; [lia|done]|done].
  - split; [split; [lia|done]|done].
  - split; [split; [lia|done]|done].
Qed.

Lemma pc_feature_decode_witness :
  (ConvertPCFeatureToPcIndex (2 ^ 27 + 5) = None
   ↔ 2 ^ 27 + 5 < 2 ^ 27 ∨ 2 ^ 28 ≤ 2 ^ 27 + 5)
  ∧ ∀ r, ConvertPCFeatureToPcIndex (2 ^ 27 + 5) = Some r →
         0 ≤ r < 2 ^ 27 ∧ ConvertToMe kPCs r = 2 ^ 27 + 5.
Proof. apply (pc_feature_decode (2 ^ 27 + 5)). lia. Defined.

(** X9.  [ConvertPcPairToNumber] is invertible while nothing wraps: for
    [pc1, pc2 < max_pc ≤ 2^32] the number, divided by [max_pc], gives back
    [pc1] and [pc2], so distinct ordered pairs get distinct numbers. *)
Theorem pc_pair_decode (pc1 pc2 max_pc : Z) :
  0 ≤ pc1 < max_pc → 0 ≤ pc2 < max_pc → max_pc ≤ 2 ^ 32 →
  ConvertPcPairToNumber pc1 pc2 max_pc = pc1 * max_pc + pc2
  ∧ ConvertPcPairToNumber pc1 pc2 max_pc `div` max_pc = pc1
  ∧ ConvertPcPairToNumber pc1 pc2 max_pc `mod` max_pc = pc2.
Proof.
  intros H1 H2 Hmax.
  assert (ConvertPcPairToNumber pc1 pc2 max_pc = pc1 * max_pc + pc2) as ->.
  { unfold ConvertPcPairToNumber, size_t, wrap. apply Z.mod_small.
    assert (pc1 * max_pc ≤ (max_pc - 1) * max_pc) by nia.
    assert (max_pc * max_pc ≤ 2 ^ 32 * 2 ^ 32) by nia. nia. }
  split_and!; [done| |].
  - symmetry. apply Z.div_unique with pc2; lia.
  - symmetry. apply Z.mod_unique with pc1; lia.
Qed.

Lemma pc_pair_decode_witness :
  ConvertPcPairToNumber 3 5 10 = 3 * 10 + 5
  ∧ ConvertPcPairToNumber 3 5 10 `div` 10 = 3
  ∧ ConvertPcPairToNumber 3 5 10 `mod` 10 = 5.
Proof. apply (pc_pair_decode 3 5 10); lia. Defined.

(** X10.  [ABToCmpModDiff] on 64-bit operands works on the differences modulo
    [2^64]: the result is below 64; it is [k] in [[1, 32]] exactly when
    [a - b ≡ k]; it is [32 + k] with [k] in [[1, 31]] exactly when
    [b - a ≡ k]; and it is 0 exactly when [a = b] or neither difference is
    that small (in particular when [b - a ≡ 32]). *)
Theorem ABToCmpModDiff_cases (a b : Z) :
  0 ≤ a < 2 ^ 64 → 0 ≤ b < 2 ^ 64 →
  0 ≤ ABToCmpModDiff a b < 64
  ∧ (∀ k, 1 ≤ k ≤ 32 →
          ABToCmpModDiff a b = k ↔ (a - b) `mod` 2 ^ 64 = k)
  ∧ (∀ k, 1 ≤ k < 32 →
          ABToCmpModDiff a b = 32 + k ↔ (b - a) `mod` 2 ^ 64 = k)
  ∧ (ABToCmpModDiff a b = 0
     ↔ a = b ∨ (32 < (a - b) `mod` 2 ^ 64 ∧ 32 ≤ (b - a) `mod` 2 ^ 64)).
Proof.
  intros Ha Hb. unfold ABToCmpModDiff, uintptr_t, wrap.
  split; [repeat case_decide; zlia|].
  split; [intros k Hk; repeat case_decide; split; intros; zlia|].
  split; [intros k Hk; repeat case_decide; split; intros; zlia|].
  repeat case_decide; split; intros; zlia.
Qed.

Lemma ABToCmpModDiff_cases_witness :
  0 ≤ ABToCmpModDiff 10 17 < 64
  ∧ (∀ k, 1 ≤ k ≤ 32 →
          ABToCmpModDiff 10 17 = k ↔ (10 - 17) `mod` 2 ^ 64 = k)
  ∧ (∀ k, 1 ≤ k < 32 →
          ABToCmpModDiff 10 17 = 32 + k ↔ (17 - 10) `mod` 2 ^ 64 = k)
  ∧ (ABToCmpModDiff 10 17 = 0
     ↔ 10 = 17 ∨ (32 < (10 - 17) `mod` 2 ^ 64 ∧ 32 ≤ (17 - 10) `mod` 2 ^ 64)).
Proof. apply (ABToCmpModDiff_cases 10 17); lia. Defined.

Example ABToCmpModDiff_values :
  (λ a, ABToCmpModDiff a 5) <$> [5; 37; 10; 0; 100] = [0; 32; 5; 37; 0].
Proof. reflexivity. Qed.

Lemma testbit_top_false (m : nat) (x : Z) :
  0 ≤ x < 2 ^ Z.of_nat (S m) → Z.testbit x (Z.of_nat m) = false →
  x < 2 ^ Z.of_nat m.
Proof.
  intros Hx Hbit. rewrite Nat2Z.inj_succ, Z.pow_succ_r in Hx by lia.
  assert (0 < 2 ^ Z.of_nat m) as Hpow by (apply Z.pow_pos_nonneg; lia).
  apply Z.testbit_false in Hbit; [|lia].
  destruct (Z_lt_le_dec x (2 ^ Z.of_nat m)) as [|Hle]; [done|].
  assert (x `div` 2 ^ Z.of_nat m = 1) as Hone.
  { symmetry. apply Z.div_unique with (x - 2 ^ Z.of_nat m); lia. }
  rewrite Hone in Hbit. done.
Qed.

Lemma popcount_from_zero (n : nat) (x : Z) :
  0 ≤ x < 2 ^ Z.of_nat n → popcount_from n x = 0 → x = 0.
Proof.
  revert x. induction n as [|n IH]; intros x Hx Hpop.
  - simpl in Hx. lia.
  - simpl in Hpop. pose proof (popcount_from_bounds n x).
    destruct (Z.testbit x (Z.of_nat n)) eqn:Hbit; [lia|].
    apply IH; [|lia]. split; [lia|]. by apply testbit_top_false.
Qed.

Lemma lxor_bound (a b : Z) :
  0 ≤ a < 2 ^ 64 → 0 ≤ b < 2 ^ 64 → 0 ≤ Z.lxor a b < 2 ^ 64.
Proof.
  intros Ha Hb.
  assert (0 ≤ Z.lxor a b) as Hnn by (apply Z.lxor_nonneg; lia).
  split; [done|].
  destruct (decide (Z.lxor a b = 0)) as [->|Hnz]; [lia|].
  apply Z.log2_lt_pow2; [lia|].
  pose proof (Z.log2_lxor a b ltac:(lia) ltac:(lia)) as Hlog.
  assert (∀ c, 0 ≤ c < 2 ^ 64 → Z.log2 c < 64) as Hc.
  { intros c Hc. destruct (decide (c = 0)) as [->|]; [done|].
    apply Z.log2_lt_pow2; lia. }
  pose proof (Hc a Ha). pose proof (Hc b Hb). lia.
Qed.

(** X11.  [ABToCmpHamming] on distinct 64-bit operands: the result is the
    number of differing bits minus one, lies in [[0, 63]] and does not
    depend on the order of the operands. *)
Theorem ABToCmpHamming_range (a b : Z) :
  0 ≤ a < 2 ^ 64 → 0 ≤ b < 2 ^ 64 → a ≠ b →
  ABToCmpHamming a b = builtin_popcountll (Z.lxor a b) - 1
  ∧ 0 ≤ ABToCmpHamming a b ≤ 63
  ∧ ABToCmpHamming a b = ABToCmpHamming b a.
Proof.
  intros Ha Hb Hne. unfold ABToCmpHamming.
  rewrite (Z.lxor_comm b a).
  pose proof (popcount_from_bounds 64 (Z.lxor a b)) as Hpop.
  assert (builtin_popcountll (Z.lxor a b) ≠ 0) as Hnz.
  { unfold builtin_popcountll. intros Hz.
    apply popcount_from_zero in Hz; [|by apply lxor_bound].
    by apply Z.lxor_eq in Hz. }
  unfold builtin_popcountll in *. unfold uintptr_t, wrap.
  rewrite Z.mod_small by lia. lia.
Qed.

Lemma ABToCmpHamming_range_witness :
  ABToCmpHamming 12 10 = builtin_popcountll (Z.lxor 12 10) - 1
  ∧ 0 ≤ ABToCmpHamming 12 10 ≤ 63
  ∧ ABToCmpHamming 12 10 = ABToCmpHamming 10 12.
Proof. apply (ABToCmpHamming_range 12 10); lia. Defined.

(** X12.  [ABToCmpDiffLog] on distinct 64-bit operands: the result is
    [63 - ⌊log₂ |a - b|⌋], lies in [[0, 63]] and does not depend on the order
    of the operands. *)
Theorem ABToCmpDiffLog_range (a b : Z) :
  0 ≤ a < 2 ^ 64 → 0 ≤ b < 2 ^ 64 → a ≠ b →
  ABToCmpDiffLog a b = 63 - Z.log2 (Z.abs (a - b))
  ∧ 0 ≤ ABToCmpDiffLog a b ≤ 63
  ∧ ABToCmpDiffLog a b = ABToCmpDiffLog b a.
Proof.
  intros Ha Hb Hne.
  assert (∀ x y, 0 ≤ x < 2 ^ 64 → 0 ≤ y < 2 ^ 64 → x ≠ y →
            ABToCmpDiffLog x y = 63 - Z.log2 (Z.abs (x - y))
            ∧ 0 ≤ Z.log2 (Z.abs (x - y)) < 64) as Hspec.
  { intros x y Hx Hy Hxy. unfold ABToCmpDiffLog, builtin_clzll.
    assert (0 < Z.abs (x - y) < 2 ^ 64) as Habs by lia.
    assert (0 ≤ Z.log2 (Z.abs (x - y)) < 64) as Hlog.
    { split; [apply Z.log2_nonneg|]. apply Z.log2_lt_pow2; lia. }
    assert ((if decide (x > y) then uintptr_t (x - y) else uintptr_t (y - x))
            = Z.abs (x - y)) as ->.
    { unfold uintptr_t, wrap. case_decide; rewrite Z.mod_small; lia. }
    rewrite clz_from_log2 by (simpl; lia).
    unfold uintptr_t, wrap. rewrite Z.mod_small; simpl; lia. }
  destruct (Hspec a b Ha Hb Hne) as [Hab Hlog].
  destruct (Hspec b a Hb Ha ltac:(congruence)) as [Hba _].
  split; [done|]. split; [lia|].
  rewrite Hab, Hba. do 2 f_equal. lia.
Qed.

Lemma ABToCmpDiffLog_range_witness :
  ABToCmpDiffLog 1000 3 = 63 - Z.log2 (Z.abs (1000 - 3))
  ∧ 0 ≤ ABToCmpDiffLog 1000 3 ≤ 63
  ∧ ABToCmpDiffLog 1000 3 = ABToCmpDiffLog 3 1000.
Proof. apply (ABToCmpDiffLog_range 1000 3); lia. Defined.

End MoreFeatures.

Lemma push_all_cons (kSize : nat) (f : Z) (fs : list Z) (a : FeatureArray.t) :
  push_all kSize (f :: fs) a
  = push_all kSize fs (FeatureArray.push_back kSize f a).
Proof. done. Qed.

Lemma push_all_spec (kSize : nat) (fs : list Z) (a : FeatureArray.t) :
  length (FeatureArray.features_ a) = kSize →
  FeatureArray.num_features_ a ≤ kSize →
  FeatureArray.size (push_all kSize fs a)
  = (FeatureArray.num_features_ a + length fs) `min` kSize
  ∧ length (FeatureArray.data (push_all kSize fs a)) = kSize
  ∧ take (FeatureArray.size (push_all kSize fs a))
         (FeatureArray.data (push_all kSize fs a))
    = take (FeatureArray.num_features_ a) (FeatureArray.features_ a)
      ++ take (kSize - FeatureArray.num_features_ a) fs.
Proof.
  revert a. induction fs as [|f fs IH]; intros [l n] Hlen Hn;
    cbn [FeatureArray.features_ FeatureArray.num_features_] in *.
  - unfold push_all, FeatureArray.size, FeatureArray.data. simpl.
    rewrite Nat.add_0_r, Nat.min_l by done. by rewrite take_nil, app_nil_r.
  - rewrite push_all_cons. unfold FeatureArray.push_back.
    cbn [FeatureArray.features_ FeatureArray.num_features_].
    case_decide as Hfull.
    + destruct (IH (FeatureArray.mk (<[n := f]> l) (S n))) as (Hs & Hl & Ht);
        [simpl; by rewrite length_insert|simpl; lia|].
      cbn [FeatureArray.features_ FeatureArray.num_features_] in *.
      split_and!; [rewrite Hs; cbn [length]; lia|done|]. rewrite Ht.
      rewrite (take_S_r _ _ f) by (apply list_lookup_insert_eq; lia).
      rewrite take_insert_ge by lia.
      replace (kSize - n) with (S (kSize - S n)) by lia.
      by rewrite <- app_assoc.
    + assert (n = kSize) as -> by lia.
      destruct (IH (FeatureArray.mk l kSize)) as (Hs & Hl & Ht); [done..|].
      cbn [FeatureArray.features_ FeatureArray.num_features_] in *.
      split_and!; [rewrite Hs; cbn [length]; lia|done|].
      rewrite Ht. by rewrite Nat.sub_diag.
Qed.

(** X13.  [FeatureArray<kSize>]: after [clear()] and any sequence of [push_back]
    calls, [size()] is the number of pushes capped at [kSize], never more, and
    [data()] holds the first [kSize] pushed features in order: pushes beyond
    the capacity are dropped. *)
Theorem feature_array_pushes (kSize : nat) (fs : list Z) (a : FeatureArray.t) :
  length (FeatureArray.features_ a) = kSize →
  FeatureArray.size (push_all kSize fs (FeatureArray.clear a))
  = length fs `min` kSize
  ∧ take (FeatureArray.size (push_all kSize fs (FeatureArray.clear a)))
         (FeatureArray.data (push_all kSize fs (FeatureArray.clear a)))
    = take kSize fs.
Proof.
  intros Hlen.
  destruct (push_all_spec kSize fs (FeatureArray.clear a)) as (Hs & _ & Ht);
    [done|simpl; lia|].
  simpl in *. split; [done|]. rewrite Ht. by rewrite Nat.sub_0_r.
Qed.

Lemma feature_array_pushes_witness :
  FeatureArray.size
    (push_all 3 [10; 20; 30; 40; 50]%Z
       (FeatureArray.clear (FeatureArray.mk [7; 7; 7]%Z 2)))
  = length [10; 20; 30; 40; 50]%Z `min` 3
  ∧ take (FeatureArray.size
            (push_all 3 [10; 20; 30; 40; 50]%Z
               (FeatureArray.clear (FeatureArray.mk [7; 7; 7]%Z 2))))
         (FeatureArray.data
            (push_all 3 [10; 20; 30; 40; 50]%Z
               (FeatureArray.clear (FeatureArray.mk [7; 7; 7]%Z 2))))
    = take 3 [10; 20; 30; 40; 50]%Z.
Proof. apply (feature_array_pushes 3). reflexivity. Defined.

(** ** [TableOfRecentCompares<T>]: [Insert] and the dictionary built on it *)

Section MoreTORC.
Local Open Scope Z_scope.
Import TableOfRecentCompares.

(** The widths [TableOfRecentCompares] accepts. *)
Lemma kValueMask_cases (sizeofT : Z) :
  sizeofT ∈ [1; 2; 4; 8] →
  ∃ k, 0 ≤ k ∧ kValueMask sizeofT = Z.ones k
       ∧ 2 ^ k ≤ Z.of_nat (kTableSize sizeofT).
Proof.
  intros Hsz. rewrite !elem_of_cons, elem_of_nil in Hsz.
  destruct Hsz as [->|[->|[->|[->|[]]]]].
  - by exists 8.
  - by exists 11.
  - by exists 10.
  - by exists 9.
Qed.

Lemma Insert_cursor_bound (sizeofT l r : Z) (tb : t) :
  sizeofT ∈ [1; 2; 4; 8] →
  0 ≤ insert_index_ (Insert sizeofT l r tb) < Z.of_nat (kTableSize sizeofT).
Proof.
  intros Hsz. destruct (kValueMask_cases sizeofT Hsz) as (k & Hk & Hmask & Hle).
  unfold Insert. cbn [insert_index_]. rewrite Hmask, Z.land_ones by done.
  pose proof (Z.mod_pos_bound (size_t (insert_index_ tb * 37 + 89)) (2 ^ k)
                ltac:(by apply Z.pow_pos_nonneg)). lia.
Qed.

(** X14.  Insert / lookup round trip. On a well-formed table of width 1, 2,
    4 or 8, [Insert(l, r)] keeps the table well formed and stores the pair
    in the slot the cursor now points at; a following
    [GetMatchingIntegerDictionaryEntries(l, min, max)] returns [r] when [r]
    is in the range, and a query for [r] returns [l] when [l] is. *)
Theorem insert_then_match (sizeofT : Z) (tb : t) (l r min max : Z) :
  sizeofT ∈ [1; 2; 4; 8] → table_ok sizeofT tb →
  entry_ok sizeofT (mkEntry l r) →
  table_ok sizeofT (Insert sizeofT l r tb)
  ∧ table_ (Insert sizeofT l r tb)
      !!! Z.to_nat (insert_index_ (Insert sizeofT l r tb)) = mkEntry l r
  ∧ (min ≤ r ≤ max →
     r ∈ GetMatchingIntegerDictionaryEntries sizeofT (Insert sizeofT l r tb)
           l min max)
  ∧ (min ≤ l ≤ max →
     l ∈ GetMatchingIntegerDictionaryEntries sizeofT (Insert sizeofT l r tb)
           r min max).
Proof.
  intros Hsz Hok He.
  pose proof (Insert_table_ok sizeofT tb l r Hok He) as Hok'.
  pose proof (Insert_cursor_bound sizeofT l r tb Hsz) as Hidx.
  assert (table_ (Insert sizeofT l r tb)
            !!! Z.to_nat (insert_index_ (Insert sizeofT l r tb)) = mkEntry l r)
    as Hslot.
  { unfold Insert in *. cbn [insert_index_ table_] in *.
    apply list_lookup_total_insert_eq. destruct Hok as [-> _]. lia. }
  assert (mkEntry l r ∈ table_ (Insert sizeofT l r tb)) as Hin.
  { rewrite <- Hslot. apply list_elem_of_lookup_total_2.
    destruct Hok' as [-> _]. lia. }
  split_and!; [done|done| |].
  - intros Hr. apply matching_entries_elem_of; [done|].
    split; [|done]. exists (mkEntry l r). auto.
  - intros Hl. apply matching_entries_elem_of; [done|].
    split; [|done]. exists (mkEntry l r). auto.
Qed.

Lemma insert_then_match_witness :
  table_ok 4 (Insert 4 42 99 (empty 4))
  ∧ table_ (Insert 4 42 99 (empty 4))
      !!! Z.to_nat (insert_index_ (Insert 4 42 99 (empty 4))) = mkEntry 42 99
  ∧ (0 ≤ 99 ≤ 100 →
     99 ∈ GetMatchingIntegerDictionaryEntries 4 (Insert 4 42 99 (empty 4))
            42 0 100)
  ∧ (0 ≤ 42 ≤ 100 →
     42 ∈ GetMatchingIntegerDictionaryEntries 4 (Insert 4 42 99 (empty 4))
            99 0 100).
Proof.
  apply (insert_then_match 4 (empty 4) 42 99 0 100).
  - set_solver.
  - apply empty_table_ok. lia.
  - unfold entry_ok, bits, CHAR_BIT. simpl. lia.
Defined.

(** X15.  [TableOfRecentCompares<uint8_t>] has 4096 slots, but [kValueMask],
    being a [uint8_t], is 255: every [Insert] lands in a slot below 256 and
    no slot from 256 on is ever written. *)
Theorem uint8_table_uses_256_slots (tb : t) (l r : Z) (i : nat) :
  (256 ≤ i)%nat →
  kTableSize 1 = 4096%nat
  ∧ kValueMask 1 = 255
  ∧ 0 ≤ insert_index_ (Insert 1 l r tb) < 256
  ∧ table_ (Insert 1 l r tb) !!! i = table_ tb !!! i.
Proof.
  intros Hi.
  assert (0 ≤ insert_index_ (Insert 1 l r tb) < 256) as Hidx.
  { unfold Insert. cbn [insert_index_].
    change (kValueMask 1) with (Z.ones 8). rewrite Z.land_ones by done.
    apply Z.mod_pos_bound. lia. }
  split_and!; [done|done|lia|lia|].
  unfold Insert in *. cbn [insert_index_ table_] in *.
  apply list_lookup_total_insert_ne. lia.
Qed.

Lemma uint8_table_uses_256_slots_witness :
  kTableSize 1 = 4096%nat
  ∧ kValueMask 1 = 255
  ∧ 0 ≤ insert_index_ (Insert 1 3 4 (empty 1)) < 256
  ∧ table_ (Insert 1 3 4 (empty 1)) !!! 256%nat = table_ (empty 1) !!! 256%nat.
Proof. apply (uint8_table_uses_256_slots (empty 1) 3 4 256). lia. Defined.

Lemma fold_insert_entry_size (f : nat → option Z) (idxs : list nat)
    (acc : gset Z) :
  (size (foldl (λ set i, insert_entry set (f i)) acc idxs)
   ≤ size acc + length idxs)%nat.
Proof.
  revert acc. induction idxs as [|i idxs IH]; intros acc; simpl; [lia|].
  etrans; [apply IH|]. unfold insert_entry. destruct (f i) as [v|]; [|lia].
  rewrite size_union_alt, size_singleton.
  pose proof (subseteq_size (acc ∖ {[v]}) acc ltac:(set_solver)). lia.
Qed.

End MoreTORC.

(** ** [IntegerDictionary<T>], for unsigned, signed and [bool] [T] *)

Section Dictionary.
Local Open Scope Z_scope.
Import TableOfRecentCompares.

(** At an unsigned [ValueType] the templates are the functions of
    [TableOfRecentCompares] above. *)
Lemma unsigned_value_type (sizeofT : Z) (tb : t) (val : Z) (i : nat)
    (min max : Z) (coin : bool) :
  TableOfRecentCompares_ValueType.GetMatchingIntegerDictionaryEntry
    sizeofT Unsigned tb val i
  = GetMatchingIntegerDictionaryEntry sizeofT tb val i
  ∧ TableOfRecentCompares_ValueType.GetMatchingIntegerDictionaryEntry_in
      sizeofT Unsigned tb val i min max
    = GetMatchingIntegerDictionaryEntry_in sizeofT tb val i min max
  ∧ TableOfRecentCompares_ValueType.GetRandomSide
      sizeofT Unsigned coin tb i min max
    = GetRandomSide sizeofT coin tb i min max.
Proof. done. Qed.

Lemma bits_cases (sizeofT : Z) :
  sizeofT ∈ [1; 2; 4; 8] →
  ∃ w, 0 ≤ w ∧ bits sizeofT = w + 1.
Proof.
  intros Hsz. rewrite !elem_of_cons, elem_of_nil in Hsz. unfold bits, CHAR_BIT.
  destruct Hsz as [->|[->|[->|[->|[]]]]];
    [exists 7|exists 15|exists 31|exists 63]; split; lia.
Qed.

(** A [static_cast<ValueType>] lands in the range of [ValueType]. *)
Lemma value_static_cast_range (sizeofT : Z) (kind : value_kind) (x : Z) :
  sizeofT ∈ [1; 2; 4; 8] →
  TableOfRecentCompares_ValueType.numeric_limits_min sizeofT kind
  ≤ TableOfRecentCompares_ValueType.static_cast sizeofT kind x
  ≤ TableOfRecentCompares_ValueType.numeric_limits_max sizeofT kind.
Proof.
  intros Hsz. destruct (bits_cases sizeofT Hsz) as (w & Hw & Hbits).
  unfold TableOfRecentCompares_ValueType.numeric_limits_min,
    TableOfRecentCompares_ValueType.numeric_limits_max,
    TableOfRecentCompares_ValueType.static_cast, wrap.
  rewrite Hbits. replace (w + 1 - 1) with w by lia.
  replace (2 ^ (w + 1)) with (2 * 2 ^ w)
    by (rewrite Z.pow_add_r, Z.pow_1_r by lia; lia).
  pose proof (Z.pow_pos_nonneg 2 w ltac:(lia) Hw) as Hpos.
  pose proof (Z.mod_pos_bound x (2 * 2 ^ w) ltac:(lia)) as Hm.
  cbn zeta. destruct kind; repeat case_decide; lia.
Qed.

(** Converting to the slot type and back gives the value again. *)
Lemma value_static_cast_to_T (sizeofT : Z) (kind : value_kind) (x : Z) :
  sizeofT ∈ [1; 2; 4; 8] →
  TableOfRecentCompares_ValueType.static_cast sizeofT kind
    (TableOfRecentCompares_ValueType.to_T sizeofT
       (TableOfRecentCompares_ValueType.static_cast sizeofT kind x))
  = TableOfRecentCompares_ValueType.static_cast sizeofT kind x.
Proof.
  intros Hsz. destruct (bits_cases sizeofT Hsz) as (w & Hw & Hbits).
  unfold TableOfRecentCompares_ValueType.static_cast,
    TableOfRecentCompares_ValueType.to_T, wrap.
  rewrite Hbits. replace (w + 1 - 1) with w by lia.
  replace (2 ^ (w + 1)) with (2 * 2 ^ w)
    by (rewrite Z.pow_add_r, Z.pow_1_r by lia; lia).
  pose proof (Z.pow_pos_nonneg 2 w ltac:(lia) Hw) as Hpos.
  set (M := 2 ^ w) in *.
  pose proof (Z.mod_pos_bound x (2 * M) ltac:(lia)) as Hm.
  set (u := x `mod` (2 * M)) in *. cbn zeta.
  destruct kind.
  - by rewrite !(Z.mod_small u) by lia.
  - destruct (decide (u < M)) as [Hlt|Hge].
    + rewrite !(Z.mod_small u) by lia. by rewrite decide_True by done.
    + rewrite Z.mod_mod by lia.
      replace ((u - 2 * M) `mod` (2 * M)) with u.
      * by rewrite decide_False by done.
      * symmetry. rewrite <- (Z.mod_small u (2 * M)) at 2 by lia.
        replace (u - 2 * M) with (u + (-1) * (2 * M)) by lia.
        apply Z.mod_add. lia.
  - destruct (decide (u = 0)) as [Hz|Hnz].
    + rewrite !(Z.mod_small 0) by lia. by rewrite decide_True by done.
    + rewrite !(Z.mod_small 1) by lia. by rewrite decide_False by done.
Qed.

(** What a matching slot yields: the other operand, read as [ValueType]. *)
Lemma value_entry_match (sizeofT : Z) (kind : value_kind) (tb : t)
    (val : Z) (i : nat) (v : Z) :
  TableOfRecentCompares_ValueType.GetMatchingIntegerDictionaryEntry
    sizeofT kind tb val i = Some v →
  v = TableOfRecentCompares_ValueType.static_cast sizeofT kind
        (lhs (table_ tb !!! i))
  ∨ v = TableOfRecentCompares_ValueType.static_cast sizeofT kind
          (rhs (table_ tb !!! i)).
Proof.
  unfold TableOfRecentCompares_ValueType.GetMatchingIntegerDictionaryEntry.
  cbn zeta. repeat case_decide; intros [= <-]; auto.
Qed.

Lemma value_entry_match_in (sizeofT : Z) (kind : value_kind) (tb : t)
    (val : Z) (i : nat) (min max v : Z) :
  TableOfRecentCompares_ValueType.GetMatchingIntegerDictionaryEntry_in
    sizeofT kind tb val i min max = Some v →
  min ≤ v ≤ max
  ∧ TableOfRecentCompares_ValueType.GetMatchingIntegerDictionaryEntry
      sizeofT kind tb val i = Some v.
Proof.
  unfold TableOfRecentCompares_ValueType.GetMatchingIntegerDictionaryEntry_in.
  destruct (TableOfRecentCompares_ValueType.GetMatchingIntegerDictionaryEntry
              sizeofT kind tb val i) as [r|]; [|done].
  case_decide; [done|]. intros [= <-]. split; [lia|done].
Qed.

(** The vector [GetMatchingIntegerDictionaryEntries] returns: one element
    for each distinct match, each a match of some slot. *)
Lemma value_entries_elem_of (sizeofT : Z) (kind : value_kind) (tb : t)
    (val min max b : Z) :
  sizeofT ∈ [1; 2; 4; 8] →
  b ∈ TableOfRecentCompares_ValueType.GetMatchingIntegerDictionaryEntries
        sizeofT kind tb val min max →
  ∃ i, (i < kTableSize sizeofT)%nat
       ∧ TableOfRecentCompares_ValueType.GetMatchingIntegerDictionaryEntry
           sizeofT kind tb val i = Some b
       ∧ (b = TableOfRecentCompares_ValueType.static_cast sizeofT kind
                (lhs (table_ tb !!! i))
          ∨ b = TableOfRecentCompares_ValueType.static_cast sizeofT kind
                  (rhs (table_ tb !!! i)))
       ∧ min ≤ b ≤ max.
Proof.
  intros Hsz.
  unfold TableOfRecentCompares_ValueType.GetMatchingIntegerDictionaryEntries.
  cbn zeta. rewrite list_elem_of_fmap. intros (u & -> & Hu).
  apply elem_of_elements in Hu. case_decide as Hfull.
  - apply (fold_insert_entry
             (λ i, TableOfRecentCompares_ValueType.to_T sizeofT
                     <$> TableOfRecentCompares_ValueType
                           .GetMatchingIntegerDictionaryEntry
                           sizeofT kind tb val i)) in Hu
      as [Hu|(i & Hi & Hm)]; [by apply not_elem_of_empty in Hu|].
    apply elem_of_seq in Hi. apply fmap_Some in Hm as (v & Hm & ->).
    pose proof (value_entry_match _ _ _ _ _ _ Hm) as Hside.
    assert (TableOfRecentCompares_ValueType.static_cast sizeofT kind
              (TableOfRecentCompares_ValueType.to_T sizeofT v) = v) as ->.
    { destruct Hside as [->| ->]; by apply value_static_cast_to_T. }
    exists i. split; [lia|]. split; [done|]. split; [done|].
    destruct Hfull as [-> ->].
    destruct Hside as [->| ->]; by apply value_static_cast_range.
  - apply (fold_insert_entry
             (λ i, TableOfRecentCompares_ValueType.to_T sizeofT
                     <$> TableOfRecentCompares_ValueType
                           .GetMatchingIntegerDictionaryEntry_in
                           sizeofT kind tb val i min max)) in Hu
      as [Hu|(i & Hi & Hm)]; [by apply not_elem_of_empty in Hu|].
    apply elem_of_seq in Hi. apply fmap_Some in Hm as (v & Hm & ->).
    apply value_entry_match_in in Hm as [Hrange Hm].
    pose proof (value_entry_match _ _ _ _ _ _ Hm) as Hside.
    assert (TableOfRecentCompares_ValueType.static_cast sizeofT kind
              (TableOfRecentCompares_ValueType.to_T sizeofT v) = v) as ->.
    { destruct Hside as [->| ->]; by apply value_static_cast_to_T. }
    exists i. split; [lia|]. by split; [|split].
Qed.

(** X16.  [IntegerDictionary<T>::MatchEntriesFromTableOfRecentCompares], for
    every [T] the class admits (unsigned, signed or [bool], of 1, 2, 4 or 8
    bytes), replaces the dictionary, whatever it held, by at most
    [kTableSize] entries; each entry lies within [[min, max]] (compared as
    [T]) and is the other operand, read as [T], of a slot one of whose
    operands reads as [val]. *)
Theorem dictionary_match_bounds (sizeofT : Z) (kind : value_kind)
    (val min max : Z) (torc : t) (dictionary_ : list Z) :
  sizeofT ∈ [1; 2; 4; 8] →
  (IntegerDictionary.Size
     (IntegerDictionary.MatchEntriesFromTableOfRecentCompares sizeofT kind
        val torc min max dictionary_)
   ≤ kTableSize sizeofT)%nat
  ∧ ∀ b, b ∈ IntegerDictionary.MatchEntriesFromTableOfRecentCompares sizeofT
               kind val torc min max dictionary_ →
         min ≤ b ≤ max
         ∧ ∃ i, (i < kTableSize sizeofT)%nat
                ∧ TableOfRecentCompares_ValueType
                    .GetMatchingIntegerDictionaryEntry sizeofT kind torc val i
                  = Some b.
Proof.
  intros Hsz.
  unfold IntegerDictionary.Size,
    IntegerDictionary.MatchEntriesFromTableOfRecentCompares.
  split.
  - unfold TableOfRecentCompares_ValueType.GetMatchingIntegerDictionaryEntries.
    cbn zeta. rewrite length_fmap.
    change (length (elements ?X)) with (size X).
    case_decide;
      (etrans; [apply (fold_insert_entry_size (λ i, _ <$> _))|]);
      rewrite size_empty, length_seq; lia.
  - intros b Hb.
    apply value_entries_elem_of in Hb as (i & Hi & Hm & _ & Hrange); [|done].
    split; [done|]. by exists i.
Qed.

Lemma dictionary_match_bounds_witness :
  (IntegerDictionary.Size
     (IntegerDictionary.MatchEntriesFromTableOfRecentCompares 4 Signed 5
        (Insert 4 4294967295 5 (empty 4)) (-10) 10 [1; 2; 3]%Z)
   ≤ kTableSize 4)%nat
  ∧ ∀ b, b ∈ IntegerDictionary.MatchEntriesFromTableOfRecentCompares 4 Signed
               5 (Insert 4 4294967295 5 (empty 4)) (-10) 10 [1; 2; 3] →
         -10 ≤ b ≤ 10
         ∧ ∃ i, (i < kTableSize 4)%nat
                ∧ TableOfRecentCompares_ValueType
                    .GetMatchingIntegerDictionaryEntry 4 Signed
                    (Insert 4 4294967295 5 (empty 4)) 5 i
                  = Some b.
Proof. apply (dictionary_match_bounds 4 Signed 5 (-10) 10). set_solver. Defined.

(** A signed dictionary on the unsigned table: [IntegerDictionary<int32_t>]
    after [Insert(0xFFFFFFFF, 5)] finds [-1] for [5] within [[-10, 10]]; the
    unsigned dictionary finds nothing in [[0, 10]]. *)
Example dictionary_match_signed :
  IntegerDictionary.MatchEntriesFromTableOfRecentCompares 4 Signed 5
    (Insert 4 4294967295 5 (empty 4)) (-10) 10 [] = [-1]
  ∧ IntegerDictionary.MatchEntriesFromTableOfRecentCompares 4 Unsigned 5
      (Insert 4 4294967295 5 (empty 4)) 0 10 [] = [].
Proof. split; vm_compute; reflexivity. Qed.

(** X17.  [IntegerDictionary<T>::GetRandomTORCEntry], for every [T] the class
    admits, never leaves the range: a returned value lies in [[min, max]]
    (compared as [T]) and is one of the two operands, read as [T], of the
    slot it drew. *)
Theorem random_torc_entry_in_range (sizeofT : Z) (kind : value_kind)
    (val min max : Z) (random_offset : nat) (coin : bool) (torc : t)
    (result : Z) :
  IntegerDictionary.GetRandomTORCEntry sizeofT kind val random_offset coin
    torc min max = Some result →
  min ≤ result ≤ max
  ∧ (result = TableOfRecentCompares_ValueType.static_cast sizeofT kind
                (lhs (table_ torc !!! random_offset))
     ∨ result = TableOfRecentCompares_ValueType.static_cast sizeofT kind
                  (rhs (table_ torc !!! random_offset))).
Proof.
  unfold IntegerDictionary.GetRandomTORCEntry.
  destruct (TableOfRecentCompares_ValueType
              .GetMatchingIntegerDictionaryEntry_in sizeofT kind torc val
              random_offset min max) as [r|] eqn:Hm.
  - intros [= <-]. apply value_entry_match_in in Hm as [Hrange Hm].
    split; [done|]. by apply value_entry_match in Hm.
  - unfold TableOfRecentCompares_ValueType.GetRandomSide. cbn zeta.
    destruct coin; case_decide; intros [= <-]; auto.
Qed.

Lemma random_torc_entry_in_range_witness :
  -10 ≤ -1 ≤ 10
  ∧ (-1 = TableOfRecentCompares_ValueType.static_cast 4 Signed
            (lhs (table_ (Insert 4 4294967295 5 (empty 4)) !!! 89%nat))
     ∨ -1 = TableOfRecentCompares_ValueType.static_cast 4 Signed
              (rhs (table_ (Insert 4 4294967295 5 (empty 4)) !!! 89%nat))).
Proof.
  apply (random_torc_entry_in_range 4 Signed 7 (-10) 10 89 false
           (Insert 4 4294967295 5 (empty 4)) (-1)).
  by vm_compute.
Defined.

End Dictionary.

(** ** [TableOfRecentlyComparedBuffers] *)

Section Buffers.
Import TableOfRecentlyComparedBuffers.

Lemma search_le (hay needle : list Z) : search hay needle ≤ length hay.
Proof.
  induction hay as [|x hay IH]; simpl; case_decide; simpl; lia.
Qed.

Lemma search_found (hay needle : list Z) :
  search hay needle < length hay →
  needle `prefix_of` drop (search hay needle) hay.
Proof.
  induction hay as [|x hay IH]; simpl; [case_decide; lia|].
  case_decide; [done|]. intros Hlt. apply IH. lia.
Qed.

Lemma search_first (hay needle : list Z) (i : nat) :
  i < search hay needle → ¬ needle `prefix_of` drop i hay.
Proof.
  revert i. induction hay as [|x hay IH]; intros i; simpl.
  - case_decide; lia.
  - case_decide; [lia|]. destruct i as [|i]; [done|].
    intros Hi. apply IH. lia.
Qed.

Lemma search_none (hay needle : list Z) (i : nat) :
  search hay needle = length hay → i < length hay →
  ¬ needle `prefix_of` drop i hay.
Proof. intros Heq Hi. apply search_first. lia. Qed.

Lemma search_occurrence (hay needle : list Z) (i : nat) :
  i < length hay → needle `prefix_of` drop i hay →
  search hay needle ≤ i ∧ search hay needle ≠ length hay.
Proof.
  intros Hi Hocc.
  destruct (decide (search hay needle ≤ i)) as [|Hgt]; [lia|].
  exfalso. by apply (search_first hay needle i); [lia|].
Qed.

(** X18.  What a match means. When [GetMatchingContainerDictionaryEntry]
    returns an entry, the buffer size passed the filter, the hint is an
    offset [o] inside [val], and either [buf1] occurs in [val] first at [o]
    and the value is [buf2], or [buf1] occurs nowhere in [val], [buf2]
    occurs first at [o] and the value is [buf1]. *)
Theorem container_match_sound (sizeofT : nat) (val b1 b2 : list Z)
    (n : nat) (e : DictionaryEntry) :
  GetMatchingContainerDictionaryEntry sizeofT val b1 b2 n = Some e →
  n ≠ 0 ∧ n ≤ length val * sizeofT ∧ Nat.land n (sizeofT - 1) = 0
  ∧ ∃ o, position_hint e = Some o ∧ o < length val
    ∧ ((MakeContainer sizeofT b1 n `prefix_of` drop o val
        ∧ (∀ i, i < o → ¬ MakeContainer sizeofT b1 n `prefix_of` drop i val)
        ∧ value e = MakeContainer sizeofT b2 n)
       ∨ ((∀ i, i < length val →
                ¬ MakeContainer sizeofT b1 n `prefix_of` drop i val)
          ∧ MakeContainer sizeofT b2 n `prefix_of` drop o val
          ∧ (∀ i, i < o → ¬ MakeContainer sizeofT b2 n `prefix_of` drop i val)
          ∧ value e = MakeContainer sizeofT b1 n)).
Proof.
  unfold GetMatchingContainerDictionaryEntry. cbn zeta.
  case_decide as Hfilter; [done|].
  assert (n ≠ 0 ∧ n ≤ length val * sizeofT ∧ Nat.land n (sizeofT - 1) = 0)
    as (Hn & Hsize & Hmask).
  { destruct (decide (Nat.land n (sizeofT - 1) = 0)); [|tauto].
    split_and!; [|lia|done]; intros ->; tauto. }
  pose proof (search_le val (MakeContainer sizeofT b1 n)) as Hle1.
  pose proof (search_le val (MakeContainer sizeofT b2 n)) as Hle2.
  case_decide as H1; [|case_decide as H2; [|done]]; intros [= <-];
    (split_and!; [done..|]); eexists; (split; [reflexivity|]);
    (split; [lia|]); cbn [value snd].
  - left. split_and!; [apply search_found; lia| |done].
    intros i Hi. by apply search_first.
  - right. split_and!; [|apply search_found; lia| |done].
    + intros i Hi. apply search_none; [|done].
      by destruct (decide (search val (MakeContainer sizeofT b1 n)
                           = length val)); [|tauto].
    + intros i Hi. by apply search_first.
Qed.

Lemma container_match_sound_witness :
  8 ≠ 0 ∧ 8 ≤ length [88; 80; 65; 83; 83; 87; 79; 82; 68; 33]%Z * 1
  ∧ Nat.land 8 (1 - 1) = 0
  ∧ ∃ o, position_hint (Some 1, [104; 117; 110; 116; 101; 114; 50; 61]%Z)
         = Some o
    ∧ o < length [88; 80; 65; 83; 83; 87; 79; 82; 68; 33]%Z
    ∧ ((MakeContainer 1 [80; 65; 83; 83; 87; 79; 82; 68]%Z 8
          `prefix_of` drop o [88; 80; 65; 83; 83; 87; 79; 82; 68; 33]%Z
        ∧ (∀ i, i < o →
                ¬ MakeContainer 1 [80; 65; 83; 83; 87; 79; 82; 68]%Z 8
                  `prefix_of` drop i [88; 80; 65; 83; 83; 87; 79; 82; 68; 33]%Z)
        ∧ value (Some 1, [104; 117; 110; 116; 101; 114; 50; 61]%Z)
          = MakeContainer 1 [104; 117; 110; 116; 101; 114; 50; 61]%Z 8)
       ∨ ((∀ i, i < length [88; 80; 65; 83; 83; 87; 79; 82; 68; 33]%Z →
                ¬ MakeContainer 1 [80; 65; 83; 83; 87; 79; 82; 68]%Z 8
                  `prefix_of` drop i [88; 80; 65; 83; 83; 87; 79; 82; 68; 33]%Z)
          ∧ MakeContainer 1 [104; 117; 110; 116; 101; 114; 50; 61]%Z 8
              `prefix_of` drop o [88; 80; 65; 83; 83; 87; 79; 82; 68; 33]%Z
          ∧ (∀ i, i < o →
                  ¬ MakeContainer 1 [104; 117; 110; 116; 101; 114; 50; 61]%Z 8
                    `prefix_of`
                    drop i [88; 80; 65; 83; 83; 87; 79; 82; 68; 33]%Z)
          ∧ value (Some 1, [104; 117; 110; 116; 101; 114; 50; 61]%Z)
            = MakeContainer 1 [80; 65; 83; 83; 87; 79; 82; 68]%Z 8)).
Proof.
  apply (container_match_sound 1
           [88; 80; 65; 83; 83; 87; 79; 82; 68; 33]%Z
           [80; 65; 83; 83; 87; 79; 82; 68]%Z
           [104; 117; 110; 116; 101; 114; 50; 61]%Z 8).
  by vm_compute.
Defined.

(** X19.  When there is no match.  [GetMatchingContainerDictionaryEntry] returns
    [nullopt] exactly when the buffer size is 0, is not a multiple of the
    element size (as the mask test sees it), exceeds the size of [val] in
    bytes, or neither buffer occurs anywhere in [val]. *)
Theorem container_match_none (sizeofT : nat) (val b1 b2 : list Z) (n : nat) :
  GetMatchingContainerDictionaryEntry sizeofT val b1 b2 n = None
  ↔ n = 0 ∨ Nat.land n (sizeofT - 1) ≠ 0 ∨ length val * sizeofT < n
    ∨ ∀ i, i < length val →
           ¬ MakeContainer sizeofT b1 n `prefix_of` drop i val
           ∧ ¬ MakeContainer sizeofT b2 n `prefix_of` drop i val.
Proof.
  unfold GetMatchingContainerDictionaryEntry. cbn zeta.
  case_decide as Hfilter.
  { split; [|done]. intros _. tauto. }
  assert (∀ needle, search val needle ≠ length val
            ↔ ∃ i, i < length val ∧ needle `prefix_of` drop i val) as Hsearch.
  { intros needle. pose proof (search_le val needle). split.
    - intros Hne. exists (search val needle).
      split; [lia|]. apply search_found. lia.
    - intros (i & Hi & Hocc). by apply (search_occurrence val needle i). }
  repeat case_decide.
  - split; [done|]. intros [?|[?|[?|Hnone]]]; [tauto..|].
    apply Hsearch in H as (i & Hi & Hocc). by destruct (Hnone i Hi).
  - split; [done|]. intros [?|[?|[?|Hnone]]]; [tauto..|].
    apply Hsearch in H0 as (i & Hi & Hocc). by destruct (Hnone i Hi).
  - split; [|done]. intros _. do 3 right. intros i Hi. split; intros Hocc.
    + by apply (proj2 (Hsearch (MakeContainer sizeofT b1 n))); eauto.
    + by apply (proj2 (Hsearch (MakeContainer sizeofT b2 n))); eauto.
Qed.

Lemma buffers_ok_empty : buffers_ok empty.
Proof.
  split; [apply length_replicate|]. apply Forall_replicate.
  split_and!; [apply length_replicate..|]. simpl. unfold kEntrySize. lia.
Qed.

Lemma buffers_ok_lookup (tb : t) (i : nat) :
  buffers_ok tb →
  length (buf1 (table_ tb !!! i)) = kEntrySize
  ∧ length (buf2 (table_ tb !!! i)) = kEntrySize.
Proof.
  intros [Hlen Hall]. destruct (decide (i < length (table_ tb))) as [Hi|Hi].
  - apply list_lookup_lookup_total_lt in Hi.
    by destruct (Forall_lookup_1 _ _ _ _ Hall Hi) as (? & ? & _).
  - rewrite list_lookup_total_alt, lookup_ge_None_2 by lia.
    unfold default, inhabitant, ComparedBufferEntry_inhabited.
    cbn [buf1 buf2]. by rewrite !length_replicate.
Qed.

Lemma take_copy_into (src dst : list Z) (n : nat) :
  n ≤ length src → n ≤ length dst → take n (copy_into src n dst) = take n src.
Proof.
  intros Hsrc Hdst. unfold copy_into. apply list_eq. intros i.
  rewrite !lookup_take. case_decide; [|done].
  rewrite list_lookup_inserts by (rewrite ?length_take; lia).
  rewrite Nat.sub_0_r. by rewrite lookup_take_lt.
Qed.

Lemma Insert_buffer_cursor (b1 b2 : list Z) (n : nat) (tb : t) :
  (0 ≤ insert_index_ (Insert b1 b2 n tb) < 128)%Z.
Proof.
  unfold Insert. cbn [insert_index_].
  change kValueMask with (Z.ones 7). rewrite Z.land_ones by done.
  apply Z.mod_pos_bound. lia.
Qed.

(** The slot an [Insert] writes: size [min(n, 127)] and that many leading
    bytes of each buffer, in a table that stays well formed. *)
Lemma Insert_buffer_slot (b1 b2 : list Z) (n : nat) (tb : t) :
  buffers_ok tb → n ≤ length b1 → n ≤ length b2 →
  buffers_ok (Insert b1 b2 n tb)
  ∧ (0 ≤ insert_index_ (Insert b1 b2 n tb) < 128)%Z
  ∧ buf_size (table_ (Insert b1 b2 n tb)
                !!! Z.to_nat (insert_index_ (Insert b1 b2 n tb)))
    = n `min` 127
  ∧ take (n `min` 127)
         (buf1 (table_ (Insert b1 b2 n tb)
                  !!! Z.to_nat (insert_index_ (Insert b1 b2 n tb))))
    = take (n `min` 127) b1
  ∧ take (n `min` 127)
         (buf2 (table_ (Insert b1 b2 n tb)
                  !!! Z.to_nat (insert_index_ (Insert b1 b2 n tb))))
    = take (n `min` 127) b2.
Proof.
  intros Hok H1 H2. pose proof (Insert_buffer_cursor b1 b2 n tb) as Hidx.
  pose proof Hok as [Hlen Hall].
  unfold Insert in *. cbn [insert_index_ table_] in *.
  set (idx := Z.to_nat (Z.land (size_t (insert_index_ tb * 37 + 89)) kValueMask))
    in *.
  assert (idx < length (table_ tb)) as Hlt
    by (rewrite Hlen; unfold kTableSize, idx; lia).
  destruct (buffers_ok_lookup tb idx Hok) as [Hb1 Hb2].
  assert ((if decide (kEntrySize ≤ n) then kEntrySize - 1 else n) = n `min` 127)
    as -> by (unfold kEntrySize; case_decide; lia).
  rewrite list_lookup_total_insert_eq by done. cbn [buf_size buf1 buf2].
  unfold kEntrySize in *.
  split_and!; [|lia|lia|done|by apply take_copy_into; lia
               |by apply take_copy_into; lia].
  split; cbn [table_]; [by rewrite length_insert|].
  apply Forall_insert; [done|].
  cbn [buf_size buf1 buf2]. unfold copy_into, kEntrySize.
  rewrite !length_inserts. lia.
Qed.

(** X20.  [Insert(buf1, buf2, n)] with [n] readable bytes behind each
    pointer keeps the table well formed, moves the cursor to a slot below
    128 and stores there the size [min(n, 127)] and that many leading bytes
    of each buffer; longer buffers are cut. *)
Theorem buffer_insert_spec (b1 b2 : list Z) (n : nat) (tb : t) :
  buffers_ok tb → n ≤ length b1 → n ≤ length b2 →
  buffers_ok (Insert b1 b2 n tb)
  ∧ (0 ≤ insert_index_ (Insert b1 b2 n tb) < 128)%Z
  ∧ buf_size (table_ (Insert b1 b2 n tb)
                !!! Z.to_nat (insert_index_ (Insert b1 b2 n tb)))
    = n `min` 127
  ∧ take (n `min` 127)
         (buf1 (table_ (Insert b1 b2 n tb)
                  !!! Z.to_nat (insert_index_ (Insert b1 b2 n tb))))
    = take (n `min` 127) b1
  ∧ take (n `min` 127)
         (buf2 (table_ (Insert b1 b2 n tb)
                  !!! Z.to_nat (insert_index_ (Insert b1 b2 n tb))))
    = take (n `min` 127) b2.
Proof. apply Insert_buffer_slot. Qed.

Lemma buffer_insert_spec_witness :
  buffers_ok (Insert (replicate 200 65%Z) (replicate 200 66%Z) 200 empty)
  ∧ (0 ≤ insert_index_
           (Insert (replicate 200 65%Z) (replicate 200 66%Z) 200 empty)
     < 128)%Z
  ∧ buf_size
      (table_ (Insert (replicate 200 65%Z) (replicate 200 66%Z) 200 empty)
         !!! Z.to_nat
               (insert_index_
                  (Insert (replicate 200 65%Z) (replicate 200 66%Z) 200 empty)))
    = 200 `min` 127
  ∧ take (200 `min` 127)
      (buf1
         (table_ (Insert (replicate 200 65%Z) (replicate 200 66%Z) 200 empty)
            !!! Z.to_nat
                  (insert_index_
                     (Insert (replicate 200 65%Z) (replicate 200 66%Z) 200
                        empty))))
    = take (200 `min` 127) (replicate 200 65%Z)
  ∧ take (200 `min` 127)
      (buf2
         (table_ (Insert (replicate 200 65%Z) (replicate 200 66%Z) 200 empty)
            !!! Z.to_nat
                  (insert_index_
                     (Insert (replicate 200 65%Z) (replicate 200 66%Z) 200
                        empty))))
    = take (200 `min` 127) (replicate 200 66%Z).
Proof.
  apply (buffer_insert_spec (replicate 200 65%Z) (replicate 200 66%Z) 200 empty);
    [apply buffers_ok_empty|by rewrite length_replicate..].
Defined.

Lemma fold_insert_opt {A B : Type} `{Countable B} (g : A → option B)
    (l : list A) (acc : gset B) (b : B) :
  b ∈ foldl (λ set a, match g a with
                      | Some e => {[ e ]} ∪ set
                      | None => set
                      end) acc l
  ↔ b ∈ acc ∨ ∃ a, a ∈ l ∧ g a = Some b.
Proof.
  revert acc. induction l as [|a l IH]; intros acc; simpl.
  - split; [auto|]. intros [?|(a & Ha & _)]; [done|]. by apply elem_of_nil in Ha.
  - rewrite IH. split.
    + intros [Hacc|(a' & Ha' & Hg)].
      * destruct (g a) as [e|] eqn:Hga; [|by left].
        apply elem_of_union in Hacc as [->%elem_of_singleton|?]; [|by left].
        right. exists a. split; [left|done].
      * right. exists a'. split; [by right|done].
    + intros [Hacc|(a' & Ha' & Hg)].
      * left. destruct (g a); [|done]. apply elem_of_union. by right.
      * apply elem_of_cons in Ha' as [->|Ha'].
        -- left. rewrite Hg. apply elem_of_union. left.
           by apply elem_of_singleton.
        -- right. eauto.
Qed.

Lemma container_entries_elem_of (sizeofT : nat) (val : list Z) (tb : t)
    (e : DictionaryEntry) :
  e ∈ GetMatchingContainerDictionaryEntries sizeofT val tb
  ↔ ∃ te, te ∈ table_ tb
          ∧ GetMatchingContainerDictionaryEntry sizeofT val (buf1 te) (buf2 te)
              (buf_size te) = Some e.
Proof.
  unfold GetMatchingContainerDictionaryEntries. cbn zeta.
  rewrite elem_of_elements, fold_insert_opt. split; [|by right].
  intros [Hempty|?]; [|done]. by apply not_elem_of_empty in Hempty.
Qed.

(** For byte containers, [MakeContainer] copies the bytes. *)
Lemma MakeContainer_bytes (buf : list Z) (n : nat) :
  n ≤ length buf → MakeContainer 1 buf n = take n buf.
Proof.
  intros Hn. unfold MakeContainer. rewrite Nat.div_1_r.
  apply list_eq. intros i. rewrite list_lookup_fmap, lookup_take.
  case_decide as Hi.
  - rewrite lookup_seq_lt by done. simpl. rewrite Nat.mul_1_r.
    destruct (lookup_lt_is_Some_2 buf i ltac:(lia)) as [x Hx].
    rewrite Hx. f_equal. rewrite (drop_S _ x) by done. simpl. lia.
  - by rewrite lookup_seq_ge by lia.
Qed.

(** X21.  Insert / match round trip on byte containers.  After
    [Insert(buf1, buf2, n)] with [0 < n ≤ 127], a container [val] in which the
    [n] bytes of [buf1] occur (say at offset [o]) gets, from
    [GetMatchingContainerDictionaryEntries], an entry whose value is the [n]
    bytes of [buf2] and whose hint is an offset [≤ o] at which [buf1]
    occurs. *)
Theorem buffer_insert_then_match (val b1 b2 : list Z) (n o : nat) (tb : t) :
  buffers_ok tb → 0 < n ≤ 127 → n ≤ length b1 → n ≤ length b2 →
  o < length val → take n b1 `prefix_of` drop o val →
  ∃ o', o' ≤ o ∧ take n b1 `prefix_of` drop o' val
        ∧ (Some o', take n b2)
          ∈ GetMatchingContainerDictionaryEntries 1 val (Insert b1 b2 n tb).
Proof.
  intros Hok Hn H1 H2 Ho Hocc.
  destruct (Insert_buffer_slot b1 b2 n tb Hok H1 H2)
    as (Hok' & Hidx & Hsize & Hbuf1 & Hbuf2).
  set (te := table_ (Insert b1 b2 n tb)
               !!! Z.to_nat (insert_index_ (Insert b1 b2 n tb))) in *.
  rewrite Nat.min_l in Hsize, Hbuf1, Hbuf2 by lia.
  destruct (buffers_ok_lookup (Insert b1 b2 n tb)
              (Z.to_nat (insert_index_ (Insert b1 b2 n tb))) Hok')
    as [Hl1 Hl2]. fold te in Hl1, Hl2. unfold kEntrySize in *.
  assert (MakeContainer 1 (buf1 te) n = take n b1) as Hm1
    by (rewrite MakeContainer_bytes by lia; done).
  assert (MakeContainer 1 (buf2 te) n = take n b2) as Hm2
    by (rewrite MakeContainer_bytes by lia; done).
  destruct (search_occurrence val (take n b1) o Ho Hocc) as [Hle Hfound].
  pose proof (search_le val (take n b1)) as Hsle.
  exists (search val (take n b1)). split_and!; [done|apply search_found; lia|].
  apply container_entries_elem_of. exists te. split.
  - apply list_elem_of_lookup_total_2. destruct Hok' as [-> _].
    unfold kTableSize. lia.
  - unfold GetMatchingContainerDictionaryEntry. cbn zeta.
    rewrite Hsize, Hm1, Hm2.
    assert (n ≤ length val).
    { apply prefix_length in Hocc. rewrite length_take, length_drop in Hocc.
      lia. }
    rewrite decide_False by (rewrite Nat.sub_diag, Nat.land_0_r; lia).
    by rewrite decide_True.
Qed.

Lemma buffer_insert_then_match_witness :
  ∃ o', o' ≤ 1
        ∧ take 8 [80; 65; 83; 83; 87; 79; 82; 68]%Z
            `prefix_of` drop o' [88; 80; 65; 83; 83; 87; 79; 82; 68; 33]%Z
        ∧ (Some o', take 8 [104; 117; 110; 116; 101; 114; 50; 61]%Z)
          ∈ GetMatchingContainerDictionaryEntries 1
              [88; 80; 65; 83; 83; 87; 79; 82; 68; 33]%Z
              (Insert [80; 65; 83; 83; 87; 79; 82; 68]%Z
                 [104; 117; 110; 116; 101; 114; 50; 61]%Z 8 empty).
Proof.
  apply (buffer_insert_then_match
           [88; 80; 65; 83; 83; 87; 79; 82; 68; 33]%Z
           [80; 65; 83; 83; 87; 79; 82; 68]%Z
           [104; 117; 110; 116; 101; 114; 50; 61]%Z 8 1 empty);
    [apply buffers_ok_empty|lia|simpl; lia|simpl; lia|simpl; lia|].
  simpl. by exists [33%Z].
Defined.

(** X22.  Both sides of a buffer pair can be drawn.  After
    [Insert(buf1, buf2, n)] with [n ≤ 127], [GetRandomSide] on the slot just
    written, for byte containers, returns [nullopt] when [n = 0] and
    otherwise an entry without position hint whose value is the [n] bytes of
    [buf1] when [RandomBool] gives true and the [n] bytes of [buf2] when it
    gives false. *)
Theorem buffer_random_side_after_insert (b1 b2 : list Z) (n : nat)
    (coin : bool) (tb : t) :
  buffers_ok tb → n ≤ 127 → n ≤ length b1 → n ≤ length b2 →
  GetRandomSide 1 coin
    (buf1 (table_ (Insert b1 b2 n tb)
             !!! Z.to_nat (insert_index_ (Insert b1 b2 n tb))))
    (buf2 (table_ (Insert b1 b2 n tb)
             !!! Z.to_nat (insert_index_ (Insert b1 b2 n tb))))
    (buf_size (table_ (Insert b1 b2 n tb)
                 !!! Z.to_nat (insert_index_ (Insert b1 b2 n tb))))
  = if decide (n = 0) then None
    else Some (None, take n (if coin then b1 else b2)).
Proof.
  intros Hok Hn H1 H2.
  destruct (Insert_buffer_slot b1 b2 n tb Hok H1 H2)
    as (Hok' & Hidx & Hsize & Hbuf1 & Hbuf2).
  destruct (buffers_ok_lookup (Insert b1 b2 n tb)
              (Z.to_nat (insert_index_ (Insert b1 b2 n tb))) Hok')
    as [Hl1 Hl2].
  set (te := table_ (Insert b1 b2 n tb)
               !!! Z.to_nat (insert_index_ (Insert b1 b2 n tb))) in *.
  rewrite Nat.min_l in Hsize, Hbuf1, Hbuf2 by lia. unfold kEntrySize in *.
  unfold GetRandomSide. cbn zeta. rewrite Hsize.
  rewrite Nat.sub_diag, Nat.land_0_r.
  destruct (decide (n = 0)) as [->|Hn0].
  - by rewrite decide_True by (by right).
  - rewrite decide_False by (intros [?|?]; done).
    rewrite !MakeContainer_bytes by lia. by destruct coin; rewrite ?Hbuf1, ?Hbuf2.
Qed.

Lemma buffer_random_side_after_insert_witness :
  GetRandomSide 1 false
    (buf1 (table_ (Insert [80; 65; 83; 83]%Z [104; 117; 110; 116]%Z 4 empty)
             !!! Z.to_nat
                   (insert_index_
                      (Insert [80; 65; 83; 83]%Z [104; 117; 110; 116]%Z 4
                         empty))))
    (buf2 (table_ (Insert [80; 65; 83; 83]%Z [104; 117; 110; 116]%Z 4 empty)
             !!! Z.to_nat
                   (insert_index_
                      (Insert [80; 65; 83; 83]%Z [104; 117; 110; 116]%Z 4
                         empty))))
    (buf_size
       (table_ (Insert [80; 65; 83; 83]%Z [104; 117; 110; 116]%Z 4 empty)
          !!! Z.to_nat
                (insert_index_
                   (Insert [80; 65; 83; 83]%Z [104; 117; 110; 116]%Z 4
                      empty))))
  = if decide (4 = 0) then None
    else Some (None, take 4 (if false then [80; 65; 83; 83]%Z
                             else [104; 117; 110; 116]%Z)).
Proof.
  apply (buffer_random_side_after_insert [80; 65; 83; 83]%Z
           [104; 117; 110; 116]%Z 4 false empty);
    [apply buffers_ok_empty|lia|simpl; lia|simpl; lia].
Defined.

(** Scenario "buffer TORC container match": "PASSWORD" against "hunter2=",
    looked up in "XPASSWORD!". *)
Example buffer_match_scenario :
  GetMatchingContainerDictionaryEntries 1
    [88; 80; 65; 83; 83; 87; 79; 82; 68; 33]%Z
    (Insert [80; 65; 83; 83; 87; 79; 82; 68]%Z
       [104; 117; 110; 116; 101; 114; 50; 61]%Z 8 empty)
  = [(Some 1, [104; 117; 110; 116; 101; 114; 50; 61]%Z)].
Proof. by vm_compute. Qed.

End Buffers.

(** ** [TableOfRecentCompares<T>]: how long a pair stays in the table *)

Section Retention.
Local Open Scope Z_scope.
Import TableOfRecentCompares.

Lemma orbit_lookup (sizeofT : Z) (n m : nat) (x : Z) :
  (m < n)%nat →
  orbit sizeofT n x !! m = Some (Nat.iter m (next_index sizeofT) x).
Proof.
  revert m x. induction n as [|n IH]; intros m x Hm; [lia|].
  destruct m as [|m]; [done|]. simpl orbit. rewrite lookup_cons.
  rewrite IH by lia. f_equal. by rewrite Nat.iter_succ_r.
Qed.

(** On cursors the update is injective: 37 is odd, so multiplication by 37
    can be undone modulo a power of two. *)
Lemma next_index_inj (sizeofT x y : Z) :
  sizeofT ∈ [1; 2; 4; 8] →
  0 ≤ x ≤ kValueMask sizeofT → 0 ≤ y ≤ kValueMask sizeofT →
  next_index sizeofT x = next_index sizeofT y → x = y.
Proof.
  intros Hsz. rewrite !elem_of_cons, elem_of_nil in Hsz. unfold next_index.
  destruct Hsz as [->|[->|[->|[->|[]]]]].
  - change (kValueMask 1) with (Z.ones 8). rewrite !Z.land_ones by done.
    unfold size_t, wrap. change (Z.ones 8) with 255.
    change (2 ^ 64) with 18446744073709551616. change (2 ^ 8) with 256.
    intros Hx Hy Heq. Z.div_mod_to_equations. lia.
  - change (kValueMask 2) with (Z.ones 11). rewrite !Z.land_ones by done.
    unfold size_t, wrap. change (Z.ones 11) with 2047.
    change (2 ^ 64) with 18446744073709551616. change (2 ^ 11) with 2048.
    intros Hx Hy Heq. Z.div_mod_to_equations. lia.
  - change (kValueMask 4) with (Z.ones 10). rewrite !Z.land_ones by done.
    unfold size_t, wrap. change (Z.ones 10) with 1023.
    change (2 ^ 64) with 18446744073709551616. change (2 ^ 10) with 1024.
    intros Hx Hy Heq. Z.div_mod_to_equations. lia.
  - change (kValueMask 8) with (Z.ones 9). rewrite !Z.land_ones by done.
    unfold size_t, wrap. change (Z.ones 9) with 511.
    change (2 ^ 64) with 18446744073709551616. change (2 ^ 9) with 512.
    intros Hx Hy Heq. Z.div_mod_to_equations. lia.
Qed.

Lemma iter_next_bound (sizeofT : Z) (n : nat) :
  sizeofT ∈ [1; 2; 4; 8] →
  0 ≤ Nat.iter n (next_index sizeofT) 0 ≤ kValueMask sizeofT.
Proof.
  intros Hsz. destruct (kValueMask_cases sizeofT Hsz) as (k & Hk & Hmask & _).
  rewrite Hmask, Z.ones_equiv.
  pose proof (Z.pow_pos_nonneg 2 k ltac:(lia) Hk).
  destruct n as [|n]; simpl; [lia|].
  set (v := Nat.iter n (next_index sizeofT) 0).
  unfold next_index. rewrite Hmask, Z.land_ones by done.
  pose proof (Z.mod_pos_bound (size_t (v * 37 + 89)) (2 ^ k)). lia.
Qed.

(** From cursor 0 the recurrence comes back to 0 after [kValueMask + 1]
    steps and not before (checked by running it, for each width). *)
Lemma cursor_cycle (sizeofT : Z) :
  sizeofT ∈ [1; 2; 4; 8] →
  (0 < cursor_period sizeofT)%nat
  ∧ Forall (λ x, x ≠ 0)
      (orbit sizeofT (cursor_period sizeofT - 1) (next_index sizeofT 0))
  ∧ Nat.iter (cursor_period sizeofT) (next_index sizeofT) 0 = 0.
Proof.
  intros Hsz. rewrite !elem_of_cons, elem_of_nil in Hsz.
  destruct Hsz as [->|[->|[->|[->|[]]]]];
    (split_and!;
     [vm_compute; lia
     |apply (bool_decide_eq_true_1 (Forall _ _)); by vm_compute
     |by vm_compute]).
Qed.

(** The cursor does not come back to a slot within fewer than
    [kValueMask + 1] steps. *)
Lemma cursor_no_return (sizeofT : Z) (m d : nat) :
  sizeofT ∈ [1; 2; 4; 8] → (0 < d < cursor_period sizeofT)%nat →
  Nat.iter (m + d) (next_index sizeofT) 0 ≠ Nat.iter m (next_index sizeofT) 0.
Proof.
  intros Hsz Hd Heq.
  destruct (cursor_cycle sizeofT Hsz) as (_ & Hnz & _).
  assert (Nat.iter d (next_index sizeofT) 0 = 0) as Hzero.
  { induction m as [|m IH]; [done|]. apply IH.
    simpl in Heq. by apply next_index_inj in Heq; [|done|apply iter_next_bound..]. }
  destruct d as [|d]; [lia|].
  rewrite Nat.iter_succ_r in Hzero.
  eapply (Forall_lookup_1 _ _ d) in Hnz; [by apply Hnz|].
  rewrite orbit_lookup by lia. done.
Qed.

Lemma insert_all_snoc (sizeofT : Z) (ps : list (Z * Z)) (p : Z * Z) (tb : t) :
  insert_all sizeofT (ps ++ [p]) tb
  = Insert sizeofT p.1 p.2 (insert_all sizeofT ps tb).
Proof. unfold insert_all. by rewrite foldl_app. Qed.

Lemma insert_all_cursor (sizeofT : Z) (ps : list (Z * Z)) (tb : t) :
  insert_index_ (insert_all sizeofT ps tb)
  = Nat.iter (length ps) (next_index sizeofT) (insert_index_ tb).
Proof.
  induction ps as [|p ps IH] using rev_ind; [done|].
  rewrite insert_all_snoc, length_app, Nat.add_comm. simpl.
  by rewrite <- IH.
Qed.

Lemma insert_all_length (sizeofT : Z) (ps : list (Z * Z)) (tb : t) :
  length (table_ (insert_all sizeofT ps tb)) = length (table_ tb).
Proof.
  induction ps as [|p ps IH] using rev_ind; [done|].
  rewrite insert_all_snoc. unfold Insert. cbn [table_].
  by rewrite length_insert.
Qed.

Lemma insert_all_table_ok (sizeofT : Z) (ps : list (Z * Z)) (tb : t) :
  table_ok sizeofT tb →
  Forall (λ p, entry_ok sizeofT (mkEntry p.1 p.2)) ps →
  table_ok sizeofT (insert_all sizeofT ps tb).
Proof.
  intros Hok. induction ps as [|p ps IH] using rev_ind; intros Hps; [done|].
  apply Forall_app in Hps as [Hps Hp]. rewrite Forall_singleton in Hp.
  rewrite insert_all_snoc. apply Insert_table_ok; [by apply IH|exact Hp].
Qed.

(** X23.  A pair survives the next [kValueMask] inserts. Starting from the
    empty table, after any inserts, then [Insert(l, r)], then fewer than
    [kValueMask + 1] further inserts, the pair [(l, r)] is still in the
    table; so, when all operands are values of [T] and [r] is in the range,
    a query for [l] still returns [r]. *)
Theorem recent_pair_retained (sizeofT l r min max : Z) (ps qs : list (Z * Z)) :
  sizeofT ∈ [1; 2; 4; 8] →
  (length qs < cursor_period sizeofT)%nat →
  mkEntry l r ∈ table_ (insert_all sizeofT (ps ++ (l, r) :: qs) (empty sizeofT))
  ∧ (Forall (λ p, entry_ok sizeofT (mkEntry p.1 p.2)) (ps ++ (l, r) :: qs) →
     min ≤ r ≤ max →
     r ∈ GetMatchingIntegerDictionaryEntries sizeofT
           (insert_all sizeofT (ps ++ (l, r) :: qs) (empty sizeofT))
           l min max).
Proof.
  intros Hsz Hqs.
  assert (mkEntry l r
          ∈ table_ (insert_all sizeofT (ps ++ (l, r) :: qs) (empty sizeofT)))
    as Hin.
  { set (tb0 := insert_all sizeofT ps (empty sizeofT)).
    set (tb1 := Insert sizeofT l r tb0).
    set (m := length (ps ++ [(l, r)])).
    set (c := Nat.iter m (next_index sizeofT) 0).
    assert (insert_all sizeofT (ps ++ [(l, r)]) (empty sizeofT) = tb1) as Htb1
      by apply insert_all_snoc.
    assert (insert_index_ tb1 = c) as Hc
      by (rewrite <- Htb1; apply insert_all_cursor).
    assert (0 ≤ c < Z.of_nat (kTableSize sizeofT)) as Hcb
      by (rewrite <- Hc; by apply Insert_cursor_bound).
    assert (length (table_ tb0) = kTableSize sizeofT) as Hlen0.
    { unfold tb0. rewrite insert_all_length. apply length_replicate. }
    assert (length (table_ tb1) = kTableSize sizeofT) as Hlen1.
    { unfold tb1, Insert. cbn [table_]. by rewrite length_insert. }
    assert (table_ tb1 !!! Z.to_nat c = mkEntry l r) as Hslot1.
    { rewrite <- Hc. unfold tb1, Insert. cbn [table_ insert_index_].
      apply list_lookup_total_insert_eq.
      pose proof (Insert_cursor_bound sizeofT l r tb0 Hsz) as Hb.
      unfold Insert in Hb. cbn [insert_index_] in Hb. lia. }
    assert (∀ (qs' : list (Z * Z)) (tb : t) (j : nat),
              insert_index_ tb = Nat.iter (m + j) (next_index sizeofT) 0 →
              table_ tb !!! Z.to_nat c = mkEntry l r →
              (j + length qs' < cursor_period sizeofT)%nat →
              table_ (insert_all sizeofT qs' tb) !!! Z.to_nat c = mkEntry l r)
      as Hkeep.
    { induction qs' as [|q qs' IH]; intros tb j Hidx Hslot Hj; [done|].
      change (insert_all sizeofT (q :: qs') tb)
        with (insert_all sizeofT qs' (Insert sizeofT q.1 q.2 tb)).
      assert (insert_index_ (Insert sizeofT q.1 q.2 tb)
              = Nat.iter (m + S j) (next_index sizeofT) 0) as Hidx'.
      { unfold Insert. cbn [insert_index_]. rewrite Hidx.
        by rewrite Nat.add_succ_r. }
      apply (IH _ (S j)); [done| |simpl in Hj; lia].
      pose proof (Insert_cursor_bound sizeofT q.1 q.2 tb Hsz) as Hb.
      rewrite Hidx' in Hb.
      pose proof (cursor_no_return sizeofT m (S j) Hsz
                    ltac:(simpl in Hj; lia)) as Hne.
      fold c in Hne.
      unfold Insert at 1. cbn [table_].
      rewrite list_lookup_total_insert_ne; [done|].
      fold (next_index sizeofT (insert_index_ tb)).
      change (next_index sizeofT (insert_index_ tb))
        with (insert_index_ (Insert sizeofT q.1 q.2 tb)).
      rewrite Hidx'. lia. }
    replace (ps ++ (l, r) :: qs) with ((ps ++ [(l, r)]) ++ qs)
      by (by rewrite <- app_assoc).
    assert (insert_all sizeofT ((ps ++ [(l, r)]) ++ qs) (empty sizeofT)
            = insert_all sizeofT qs tb1) as ->.
    { rewrite <- Htb1. unfold insert_all. by rewrite foldl_app. }
    rewrite <- (Hkeep qs tb1 0%nat);
      [|by rewrite Nat.add_0_r|done|simpl; lia].
    apply list_elem_of_lookup_total_2.
    rewrite insert_all_length, Hlen1. lia. }
  split; [done|]. intros Hall Hr.
  apply matching_entries_elem_of.
  - apply insert_all_table_ok; [|done]. apply empty_table_ok.
    rewrite !elem_of_cons, elem_of_nil in Hsz.
    destruct Hsz as [->|[->|[->|[->|[]]]]]; lia.
  - split; [|done]. exists (mkEntry l r). auto.
Qed.

Lemma recent_pair_retained_witness :
  mkEntry 42 99
    ∈ table_ (insert_all 4 ([(1, 2)] ++ (42, 99) :: [(3, 4); (5, 6)]) (empty 4))
  ∧ 99 ∈ GetMatchingIntegerDictionaryEntries 4
           (insert_all 4 ([(1, 2)] ++ (42, 99) :: [(3, 4); (5, 6)]) (empty 4))
           42 0 100.
Proof.
  assert (4 ∈ [1; 2; 4; 8]) as Hsz by set_solver.
  assert (length [(3, 4); (5, 6)] < cursor_period 4)%nat as Hqs
    by (vm_compute; lia).
  destruct (recent_pair_retained 4 42 99 0 100 [(1, 2)] [(3, 4); (5, 6)]
              Hsz Hqs) as [Hin Hq].
  split; [exact Hin|]. apply Hq; [|lia].
  repeat (apply Forall_cons; split; [by vm_compute|]). by apply Forall_nil.
Defined.

Lemma insert_all_last_slot (sizeofT : Z) (ps : list (Z * Z)) (p : Z * Z) :
  sizeofT ∈ [1; 2; 4; 8] →
  table_ (insert_all sizeofT (ps ++ [p]) (empty sizeofT))
    !!! Z.to_nat (insert_index_ (insert_all sizeofT (ps ++ [p]) (empty sizeofT)))
  = mkEntry p.1 p.2.
Proof.
  intros Hsz. rewrite insert_all_snoc.
  set (tb0 := insert_all sizeofT ps (empty sizeofT)).
  pose proof (Insert_cursor_bound sizeofT p.1 p.2 tb0 Hsz) as Hb.
  assert (length (table_ tb0) = kTableSize sizeofT) as Hlen.
  { unfold tb0. rewrite insert_all_length. apply length_replicate. }
  unfold Insert in *. cbn [table_ insert_index_] in *.
  apply list_lookup_total_insert_eq. lia.
Qed.

(** X24.  The bound is exact.  The insert number [kValueMask + 1] after a
    pair moves the cursor back to the pair's slot and overwrites it: the
    slot that held [p] then holds the pair inserted last. *)
Theorem slot_reused_after_period (sizeofT : Z) (ps qs : list (Z * Z))
    (p q : Z * Z) :
  sizeofT ∈ [1; 2; 4; 8] →
  S (length qs) = cursor_period sizeofT →
  insert_index_ (insert_all sizeofT (ps ++ p :: qs ++ [q]) (empty sizeofT))
  = insert_index_ (insert_all sizeofT (ps ++ [p]) (empty sizeofT))
  ∧ table_ (insert_all sizeofT (ps ++ [p]) (empty sizeofT))
      !!! Z.to_nat
            (insert_index_ (insert_all sizeofT (ps ++ [p]) (empty sizeofT)))
    = mkEntry p.1 p.2
  ∧ table_ (insert_all sizeofT (ps ++ p :: qs ++ [q]) (empty sizeofT))
      !!! Z.to_nat
            (insert_index_ (insert_all sizeofT (ps ++ [p]) (empty sizeofT)))
    = mkEntry q.1 q.2.
Proof.
  intros Hsz Hqs.
  destruct (cursor_cycle sizeofT Hsz) as (_ & _ & Hcycle).
  assert (insert_index_
            (insert_all sizeofT (ps ++ p :: qs ++ [q]) (empty sizeofT))
          = insert_index_ (insert_all sizeofT (ps ++ [p]) (empty sizeofT)))
    as Hidx.
  { rewrite !insert_all_cursor. cbn [empty insert_index_].
    replace (length (ps ++ p :: qs ++ [q]))
      with (length (ps ++ [p]) + cursor_period sizeofT)%nat
      by (rewrite !length_app; simpl; rewrite length_app; simpl; lia).
    by rewrite Nat.iter_add, Hcycle. }
  split; [done|]. split; [by apply insert_all_last_slot|].
  rewrite <- Hidx.
  replace (ps ++ p :: qs ++ [q]) with ((ps ++ p :: qs) ++ [q])
    by (by rewrite <- app_assoc).
  by apply insert_all_last_slot.
Qed.

Lemma slot_reused_after_period_witness :
  insert_index_
    (insert_all 1 ([(1, 2)] ++ (42, 99) :: replicate 255 (7, 7) ++ [(8, 9)])
       (empty 1))
  = insert_index_ (insert_all 1 ([(1, 2)] ++ [(42, 99)]) (empty 1))
  ∧ table_ (insert_all 1 ([(1, 2)] ++ [(42, 99)]) (empty 1))
      !!! Z.to_nat
            (insert_index_ (insert_all 1 ([(1, 2)] ++ [(42, 99)]) (empty 1)))
    = mkEntry 42 99
  ∧ table_
      (insert_all 1 ([(1, 2)] ++ (42, 99) :: replicate 255 (7, 7) ++ [(8, 9)])
         (empty 1))
      !!! Z.to_nat
            (insert_index_ (insert_all 1 ([(1, 2)] ++ [(42, 99)]) (empty 1)))
    = mkEntry 8 9.
Proof.
  apply (slot_reused_after_period 1 [(1, 2)] (replicate 255 (7, 7))
           (42, 99) (8, 9)).
  - set_solver.
  - vm_compute. reflexivity.
Defined.

(** One insert too many: after exactly [kValueMask + 1] further inserts the
    slot has been overwritten (here for the 8-bit table, period 256: each of
    the 256 slots in use then holds the later pair). *)
Example pair_overwritten_after_period :
  take 256 (table_ (insert_all 1 ((42, 99) :: replicate 256 (7, 7)) (empty 1)))
  = replicate 256 (mkEntry 7 7).
Proof. vm_compute. reflexivity. Qed.

End Retention.
